(** * Billiards core (game.cpp): shallow embedding and verified properties

    The C++ source computes on [float] (IEEE-754 binary32), with a few
    sub-expressions promoted to [double] (binary64).  Both formats are
    modelled bit-exactly with the executable specification of the
    Standard Library ([SpecFloat]), round-to-nearest-even, so that every
    definition below can be evaluated on concrete inputs. *)

From Stdlib Require Import ZArith List Bool Lia.
From Stdlib Require Import SpecFloat.
Import ListNotations.

(* ================================================================== *)
(** * Floating-point layer *)
(* ================================================================== *)

(** C++ [float] and [double] values. *)
Definition float := spec_float.
Definition double := spec_float.

Module F32.
Definition prec : Z := 24.
Definition emax : Z := 128.
Definition add : float -> float -> float := SFadd prec emax.
Definition sub : float -> float -> float := SFsub prec emax.
Definition mul : float -> float -> float := SFmul prec emax.
Definition div : float -> float -> float := SFdiv prec emax.
Definition neg : float -> float := SFopp.
Definition ltb : float -> float -> bool := SFltb.
Definition leb : float -> float -> bool := SFleb.
Definition eqb : float -> float -> bool := SFeqb.
  (** Conversion of an [int] to [float]. *)
Definition of_Z (z : Z) : float := binary_normalize prec emax z 0 false.
  (** The decimal literal [n/d] rounded to [float]: [n] and [d] are exactly
      representable, so the correctly rounded quotient is the literal. *)
Definition lit (n d : Z) : float := div (of_Z n) (of_Z d).
End F32.

Module F64.
Definition prec : Z := 53.
Definition emax : Z := 1024.
Definition add : double -> double -> double := SFadd prec emax.
Definition mul : double -> double -> double := SFmul prec emax.
Definition sqrt : double -> double := SFsqrt prec emax.
Definition of_Z (z : Z) : double := binary_normalize prec emax z 0 false.
Definition lit (n d : Z) : double := SFdiv prec emax (of_Z n) (of_Z d).
End F64.

(** Promotion [float -> double] (exact) and conversion [double -> float]
    (rounded to nearest even). *)
Definition to_double (x : float) : double :=
  match x with
  | S754_finite s m e =>
      binary_normalize F64.prec F64.emax (cond_Zopp s (Zpos m)) e s
  | _ => x
  end.

Definition to_float (x : double) : float :=
  match x with
  | S754_finite s m e =>
      binary_normalize F32.prec F32.emax (cond_Zopp s (Zpos m)) e s
  | _ => x
  end.

Declare Scope f32_scope.
Delimit Scope f32_scope with f32.
Infix "+" := F32.add : f32_scope.
Infix "-" := F32.sub : f32_scope.
Infix "*" := F32.mul : f32_scope.
Infix "/" := F32.div : f32_scope.
Notation "- x" := (F32.neg x) : f32_scope.
Infix "<?" := F32.ltb : f32_scope.
Infix "<=?" := F32.leb : f32_scope.
Infix "=?" := F32.eqb : f32_scope.

Declare Scope f64_scope.
Delimit Scope f64_scope with f64.
Infix "+" := F64.add : f64_scope.
Infix "*" := F64.mul : f64_scope.

(** [abs] on a [float] argument (the floating-point overload of <cmath>). *)
Definition abs (x : float) : float := SFabs x.

(** [std::max(a, b)] is [(a < b) ? b : a]; [std::min(a, b)] is
    [(b < a) ? b : a]. *)
Definition std_max (a b : float) : float := if (a <? b)%f32 then b else a.
Definition std_min (a b : float) : float := if (b <? a)%f32 then b else a.

(** [pow(v, 0.5)] on a [float] argument: the argument is promoted to
    [double], [pow] is taken as the correctly rounded binary64 square
    root, and the result is converted back where it is stored in a
    [float]. *)
Definition pow_half (v : float) : float := to_float (F64.sqrt (to_double v)).

(** Contextual conversion of a [float] to [bool]: nonzero is [true]
    (a NaN is nonzero). *)
Definition truthy (x : float) : bool := negb (x =? F32.of_Z 0)%f32.

(** Literals of the source. *)
Definition f0 : float := Eval vm_compute in F32.of_Z 0.
Definition f1 : float := Eval vm_compute in F32.of_Z 1.
Definition f2 : float := Eval vm_compute in F32.of_Z 2.
Definition fm1 : float := Eval vm_compute in F32.of_Z (-1).
Definition f0_05 : float := Eval vm_compute in F32.lit 5 100.
Definition f0_1 : float := Eval vm_compute in F32.lit 1 10.
Definition f0_15 : float := Eval vm_compute in F32.lit 15 100.
Definition f0_2 : float := Eval vm_compute in F32.lit 2 10.
Definition f0_25 : float := Eval vm_compute in F32.lit 25 100.
Definition f0_3 : float := Eval vm_compute in F32.lit 3 10.
Definition f0_5 : float := Eval vm_compute in F32.lit 5 10.
Definition f0_85 : float := Eval vm_compute in F32.lit 85 100.
Definition f0_95 : float := Eval vm_compute in F32.lit 95 100.
Definition d0_85 : double := Eval vm_compute in F64.lit 85 100.

Definition is_nan (x : float) : bool :=
  match x with S754_nan => true | _ => false end.

(* ================================================================== *)
(** * [std::array<T, 7>] *)
(* ================================================================== *)

(** A fixed-size array of seven elements.  The source only ever indexes
    it with [0 <= i < 7]; [get] answers the last element and [set] leaves
    the array alone outside that range. *)
Record array7 (A : Type) : Type := Array7
  { a0 : A; a1 : A; a2 : A; a3 : A; a4 : A; a5 : A; a6 : A }.

Arguments Array7 {A} _ _ _ _ _ _ _.
Arguments a0 {A} _.
Arguments a1 {A} _.
Arguments a2 {A} _.
Arguments a3 {A} _.
Arguments a4 {A} _.
Arguments a5 {A} _.
Arguments a6 {A} _.

Definition get {A} (a : array7 A) (i : nat) : A :=
  match i with
  | 0 => a0 a | 1 => a1 a | 2 => a2 a | 3 => a3 a
  | 4 => a4 a | 5 => a5 a | _ => a6 a
  end.

Definition set {A} (a : array7 A) (i : nat) (v : A) : array7 A :=
  match i with
  | 0 => Array7 v (a1 a) (a2 a) (a3 a) (a4 a) (a5 a) (a6 a)
  | 1 => Array7 (a0 a) v (a2 a) (a3 a) (a4 a) (a5 a) (a6 a)
  | 2 => Array7 (a0 a) (a1 a) v (a3 a) (a4 a) (a5 a) (a6 a)
  | 3 => Array7 (a0 a) (a1 a) (a2 a) v (a4 a) (a5 a) (a6 a)
  | 4 => Array7 (a0 a) (a1 a) (a2 a) (a3 a) v (a5 a) (a6 a)
  | 5 => Array7 (a0 a) (a1 a) (a2 a) (a3 a) (a4 a) v (a6 a)
  | 6 => Array7 (a0 a) (a1 a) (a2 a) (a3 a) (a4 a) (a5 a) v
  | _ => a
  end.

Definition fill {A} (v : A) : array7 A := Array7 v v v v v v v.

Definition to_list {A} (a : array7 A) : list A :=
  [a0 a; a1 a; a2 a; a3 a; a4 a; a5 a; a6 a].

(* ================================================================== *)
(** * Vector2 *)
(* ================================================================== *)

Record Vector2 : Type := mkVector2 { vx : float; vy : float }.

Local Open Scope f32_scope.

(** [pow(x * x + y * y, 0.5)] *)
Definition Vector2_length (v : Vector2) : float :=
  pow_half (vx v * vx v + vy v * vy v).

Definition Vector2_normalize (v : Vector2) : Vector2 :=
  let len := Vector2_length v in
  mkVector2 (vx v / len) (vy v / len).

Definition Vector2_invertY (v : Vector2) : Vector2 :=
  mkVector2 (vx v) (vy v * fm1).

Definition Vector2_invertX (v : Vector2) : Vector2 :=
  mkVector2 (vx v * fm1) (vy v).

(* ================================================================== *)
(** * Game parameters *)
(* ================================================================== *)

Module Params.
Module System.
Definition targetFPS : Z := 60.
End System.

Module Table.
Definition width : float := Eval vm_compute in F32.of_Z 15.
Definition height : float := Eval vm_compute in F32.of_Z 8.
Definition pocketRadius : float := f0_5.

Definition pocketsPositions : list Vector2 :=
      [ mkVector2 (- f0_5 * width) (- f0_5 * height);
        mkVector2 f0 (- f0_5 * height);
        mkVector2 (f0_5 * width) (- f0_5 * height);
        mkVector2 (- f0_5 * width) (f0_5 * height);
        mkVector2 f0 (f0_5 * height);
        mkVector2 (f0_5 * width) (f0_5 * height) ].

Definition ballsPositions : array7 Vector2 :=
      Array7
        (* player ball *)
        (mkVector2 (- f0_3 * width) f0)
        (* other balls *)
        (mkVector2 (f0_2 * width) f0)
        (mkVector2 (f0_25 * width) (f0_05 * height))
        (mkVector2 (f0_25 * width) (- f0_05 * height))
        (mkVector2 (f0_3 * width) (f0_1 * height))
        (mkVector2 (f0_3 * width) f0)
        (mkVector2 (f0_3 * width) (- f0_1 * height)).
End Table.

Module Ball.
Definition radius : float := f0_3.
End Ball.

Module Shot.
Definition chargeTime : float := f1.
End Shot.
End Params.

(* ================================================================== *)
(** * Presentation layer *)
(* ================================================================== *)

(** Modelled from the spec: the framework headers (scene.hpp, engine.hpp)
    are outside the source tree.  Per section 6 of the specification the
    collaborator creates, places and destroys opaque mesh handles and is
    otherwise passive.  A [Scene::Mesh*] is [None] for [nullptr] and
    [Some h] for a live handle; handles are handed out in increasing
    order, and every call is recorded, most recent first. *)
Definition Mesh := option nat.

Inductive Call : Type :=
| setTargetFPS (fps : Z)
| setupBackground (w h : float)
| createPocketMesh (r : float) (h : nat)
| createBallMesh (r : float) (h : nat)
| placeMesh (m : Mesh) (x y z : float)
| destroyMesh (m : Mesh)
| updateProgressBar (p : float).

(* ================================================================== *)
(** * Table and process-wide state *)
(* ================================================================== *)

Record Table : Type := mkTable
  { ballsCurrentPositions : array7 Vector2;
    speedDirection : array7 Vector2;
    speedModulus : array7 float;
    isPocketed : array7 bool;
    balls : array7 Mesh;
    pockets : list Mesh (* six entries *) }.

(** The globals of namespace [Game], together with the presentation
    layer's handle counter and call log. *)
Record World : Type := mkWorld
  { table : Table;
    isChargingShot : bool;
    shotChargeProgress : float;
    isBallsMoving : bool;
    nextMesh : nat;
    calls : list Call }.

(** Field updates. *)
Definition with_table (w : World) (t : Table) : World :=
  mkWorld t (isChargingShot w) (shotChargeProgress w) (isBallsMoving w)
    (nextMesh w) (calls w).

Definition call (c : Call) (w : World) : World :=
  mkWorld (table w) (isChargingShot w) (shotChargeProgress w)
    (isBallsMoving w) (nextMesh w) (c :: calls w).

(** A fresh handle from the presentation layer. *)
Definition fresh (w : World) : nat * World :=
  (nextMesh w,
   mkWorld (table w) (isChargingShot w) (shotChargeProgress w)
     (isBallsMoving w) (S (nextMesh w)) (calls w)).

(** A failed [assert] aborts the program: [None]. *)
Definition bind {A B} (m : option A) (f : A -> option B) : option B :=
  match m with Some a => f a | None => None end.

Notation "x <- m ;; k" := (bind m (fun x => k))
  (at level 61, m at next level, right associativity).

(** [for (int i = ...; ...; i++) body] over the listed indices. *)
Fixpoint forM (idx : list nat) (body : nat -> World -> option World)
  (w : World) : option World :=
  match idx with
  | [] => Some w
  | i :: rest => w' <- body i w ;; forM rest body w'
  end.

(** The same loop for a body that cannot fail. *)
Definition for_each {S} (idx : list nat) (body : nat -> S -> S) (s : S) : S :=
  fold_left (fun acc i => body i acc) idx s.

Notation "x >? y" := (F32.ltb y x) (at level 70, no associativity) : f32_scope.

(** Entries of ball [i], and their updates. *)
Definition pos (t : Table) (i : nat) : Vector2 := get (ballsCurrentPositions t) i.
Definition dir (t : Table) (i : nat) : Vector2 := get (speedDirection t) i.
Definition speed (t : Table) (i : nat) : float := get (speedModulus t) i.

Definition set_pos (t : Table) (i : nat) (v : Vector2) : Table :=
  mkTable (set (ballsCurrentPositions t) i v) (speedDirection t)
    (speedModulus t) (isPocketed t) (balls t) (pockets t).

Definition set_dir (t : Table) (i : nat) (v : Vector2) : Table :=
  mkTable (ballsCurrentPositions t) (set (speedDirection t) i v)
    (speedModulus t) (isPocketed t) (balls t) (pockets t).

Definition set_speed (t : Table) (i : nat) (v : float) : Table :=
  mkTable (ballsCurrentPositions t) (speedDirection t)
    (set (speedModulus t) i v) (isPocketed t) (balls t) (pockets t).

Definition set_isPocketed (t : Table) (i : nat) (b : bool) : Table :=
  mkTable (ballsCurrentPositions t) (speedDirection t)
    (speedModulus t) (set (isPocketed t) i b) (balls t) (pockets t).

Definition set_ball (t : Table) (i : nat) (m : Mesh) : Table :=
  mkTable (ballsCurrentPositions t) (speedDirection t)
    (speedModulus t) (isPocketed t) (set (balls t) i m) (pockets t).

Fixpoint list_set {A} (i : nat) (v : A) (l : list A) : list A :=
  match l, i with
  | [], _ => []
  | _ :: r, 0 => v :: r
  | a :: r, S j => a :: list_set j v r
  end.

Definition set_pocket (t : Table) (i : nat) (m : Mesh) : Table :=
  mkTable (ballsCurrentPositions t) (speedDirection t)
    (speedModulus t) (isPocketed t) (balls t) (list_set i m (pockets t)).

Definition is_null (m : Mesh) : bool :=
  match m with None => true | Some _ => false end.

(** [assert( c )] *)
Definition assert (c : bool) (w : World) : option World :=
  if c then Some w else None.

(* ================================================================== *)
(** * Table logic *)
(* ================================================================== *)

(** A default-constructed [Table]: every member is [= {}]. *)
Definition Table_default : Table :=
  mkTable (fill (mkVector2 f0 f0)) (fill (mkVector2 f0 f0)) (fill f0)
    (fill false) (fill None) (repeat None 6).

Definition Table_init_pocket (i : nat) (w : World) : option World :=
  w <- assert (is_null (nth i (pockets (table w)) None)) w ;;
  let (h, w) := fresh w in
  let w := call (createPocketMesh Params.Table.pocketRadius h) w in
  let w := with_table w (set_pocket (table w) i (Some h)) in
  let p := nth i Params.Table.pocketsPositions (mkVector2 f0 f0) in
  Some (call (placeMesh (nth i (pockets (table w)) None) (vx p) (vy p) f0) w).

Definition Table_init_ball (i : nat) (w : World) : option World :=
  w <- assert (is_null (get (balls (table w)) i)) w ;;
  let (h, w) := fresh w in
  let w := call (createBallMesh Params.Ball.radius h) w in
  let w := with_table w (set_ball (table w) i (Some h)) in
  let p := get Params.Table.ballsPositions i in
  let w := call (placeMesh (get (balls (table w)) i) (vx p) (vy p) f0) w in
  let w := with_table w (set_dir (table w) i (mkVector2 f0 f0)) in
  Some (with_table w (set_speed (table w) i f0)).

Definition Table_init (w : World) : option World :=
  let t := table w in
  let w := with_table w
    (mkTable Params.Table.ballsPositions (speedDirection t) (speedModulus t)
       (fill false) (balls t) (pockets t)) in
  w <- forM (seq 0 6) Table_init_pocket w ;;
  forM (seq 0 7) Table_init_ball w.

Definition Table_deinit (w : World) : World :=
  let w := fold_left (fun w mesh => call (destroyMesh mesh) w)
             (pockets (table w)) w in
  let w := fold_left
             (fun w mesh => if is_null mesh then w else call (destroyMesh mesh) w)
             (to_list (balls (table w))) w in
  with_table w Table_default.

Definition Table_speedSum (t : Table) : float :=
  fold_left (fun sum v => sum + v) (to_list (speedModulus t)) f0.

(* ================================================================== *)
(** * Game public interface *)
(* ================================================================== *)

Module Game.

(** The process-wide state before [init]: the initialisers of the
    globals, with an empty presentation layer. *)
Definition start : World := mkWorld Table_default false f0 false 0 [].

Definition init (w : World) : option World :=
  let w := call (setTargetFPS Params.System.targetFPS) w in
  let w := call (setupBackground Params.Table.width Params.Table.height) w in
  Table_init w.

Definition deinit (w : World) : World := Table_deinit w.

Definition isInPocket (ballIdx : nat) (t : Table) : bool :=
  let x := vx (pos t ballIdx) in
  let y := vy (pos t ballIdx) in
  existsb
    (fun p =>
       let distance := mkVector2 (vx p - x) (vy p - y) in
       Vector2_length distance <=? Params.Table.pocketRadius)
    Params.Table.pocketsPositions.

(** The four locals [x], [y], [speedDirection], [speedModulus] are
    references to the entries of ball [ballIdx]; they are read here,
    threaded through the four tests and stored back. *)
Definition checkBorders (ballIdx : nat) (t : Table) : Table :=
  let x := vx (pos t ballIdx) in
  let y := vy (pos t ballIdx) in
  let speedDirection := dir t ballIdx in
  let speedModulus := speed t ballIdx in
  let '(y, speedModulus, speedDirection) :=
    if y <? - f0_5 * Params.Table.height + Params.Ball.radius then
      (- f0_5 * Params.Table.height + Params.Ball.radius,
       speedModulus - f0_15 * speedModulus * (f1 + abs (vy speedDirection)),
       Vector2_invertY speedDirection)
    else (y, speedModulus, speedDirection) in
  let '(y, speedModulus, speedDirection) :=
    if y >? f0_5 * Params.Table.height - Params.Ball.radius then
      (f0_5 * Params.Table.height - Params.Ball.radius,
       speedModulus - f0_15 * speedModulus * (f1 + vy speedDirection),
       Vector2_invertY speedDirection)
    else (y, speedModulus, speedDirection) in
  let '(x, speedModulus, speedDirection) :=
    if x <? - f0_5 * Params.Table.width + Params.Ball.radius then
      (- f0_5 * Params.Table.width + Params.Ball.radius,
       speedModulus - f0_15 * speedModulus * (f1 + abs (vx speedDirection)),
       Vector2_invertX speedDirection)
    else (x, speedModulus, speedDirection) in
  let '(x, speedModulus, speedDirection) :=
    if x >? f0_5 * Params.Table.width - Params.Ball.radius then
      (f0_5 * Params.Table.width - Params.Ball.radius,
       speedModulus - f0_15 * speedModulus * (f1 + vx speedDirection),
       Vector2_invertX speedDirection)
    else (x, speedModulus, speedDirection) in
  set_speed (set_dir (set_pos t ballIdx (mkVector2 x y)) ballIdx speedDirection)
    ballIdx speedModulus.

(** One iteration of the loop of [checkBallCollision]: ball [ballIdx]
    against ball [i].  The entries of both balls are read from and
    written to the table as the source does through its references. *)
Definition collide (ballIdx i : nat) (t : Table) : Table :=
  if Nat.eqb i ballIdx then t
  else
    let x := vx (pos t ballIdx) in
    let y := vy (pos t ballIdx) in
    let speedDirection := dir t ballIdx in
    let speedModulus := speed t ballIdx in
    let distance := mkVector2 (vx (pos t i) - x) (vy (pos t i) - y) in
    let len := Vector2_length distance in
    if len <? f2 * Params.Ball.radius then
      let s := vx distance / len in (* sin *)
      let c := vy distance / len in (* cos *)
      let distance := Vector2_normalize distance in
      let x := x - vx distance * (f2 * Params.Ball.radius - len) in
      let y := y - vy distance * (f2 * Params.Ball.radius - len) in
      let vn1 := vx speedDirection * speedModulus * s
                 + vy speedDirection * speedModulus * c in
      let vn2 := vx (dir t i) * speed t i * s
                 + vy (dir t i) * speed t i * c in
      let vt1 := - vx (dir t i) * speed t i * c
                 + vy (dir t i) * speed t i * s in
      let vt2 := - vx speedDirection * speedModulus * c
                 + vy speedDirection * speedModulus * s in
      let speedDirection :=
        mkVector2
          (f0_85 * (vn2 * s - vt2 * c) + f0_15 * (vn1 * s - vt1 * c))
          (f0_85 * (vn2 * c + vt2 * s) + f0_15 * (vn1 * c + vt1 * s)) in
      (* the literal 0.85 of the next two lines is a double *)
      let speedDirection_i :=
        mkVector2
          (to_float
             (F64.add (F64.mul d0_85 (to_double (vn1 * s - vt1 * c)))
                      (to_double (f0_15 * (vn2 * s - vt2 * c)))))
          (to_float
             (F64.add (F64.mul d0_85 (to_double (vn1 * c + vt1 * s)))
                      (to_double (f0_15 * (vn2 * c + vt2 * s))))) in
      let speedModulus := f0_95 * Vector2_length speedDirection in
      let speedDirection := Vector2_normalize speedDirection in
      let speedModulus_i := f0_95 * Vector2_length speedDirection_i in
      let speedDirection_i := Vector2_normalize speedDirection_i in
      let t := set_pos t ballIdx (mkVector2 x y) in
      let t := set_dir t ballIdx speedDirection in
      let t := set_speed t ballIdx speedModulus in
      let t := set_dir t i speedDirection_i in
      set_speed t i speedModulus_i
    else t.

Definition checkBallCollision (ballIdx : nat) (t : Table) : Table :=
  for_each (seq 0 7) (collide ballIdx) t.

(** The early [return]s of the source are the two first branches. *)
Definition moveBall (ballIdx : nat) (dt : float) (w : World) : option World :=
  let ball := get (balls (table w)) ballIdx in
  if isInPocket ballIdx (table w) then
    if Nat.eqb ballIdx 0 then
      init (deinit w)
    else
      let w := call (destroyMesh ball) w in
      let t := set_ball (table w) ballIdx None in
      let x := f2 * Params.Table.width in
      let y := x in
      let t := set_pos t ballIdx (mkVector2 x y) in
      let t := set_speed t ballIdx f0 in
      let t := set_isPocketed t ballIdx true in
      Some (with_table w t)
  else
    let t := checkBorders ballIdx (table w) in
    let t := checkBallCollision ballIdx t in
    let x := vx (pos t ballIdx) in
    let y := vy (pos t ballIdx) in
    let speedDirection := dir t ballIdx in
    let speedModulus := speed t ballIdx in
    let newX := x + vx speedDirection * speedModulus * dt in
    let newY := y + vy speedDirection * speedModulus * dt in
    let t := set_pos t ballIdx (mkVector2 newX newY) in
    let w := call (placeMesh ball newX newY f0) (with_table w t) in
    let t := set_speed t ballIdx
               (std_max (speedModulus - f0_05 * Params.Table.width * dt) f0) in
    Some (with_table w t).

Definition set_isBallsMoving (w : World) (b : bool) : World :=
  mkWorld (table w) (isChargingShot w) (shotChargeProgress w) b
    (nextMesh w) (calls w).

Definition set_isChargingShot (w : World) (b : bool) : World :=
  mkWorld (table w) b (shotChargeProgress w) (isBallsMoving w)
    (nextMesh w) (calls w).

Definition set_shotChargeProgress (w : World) (p : float) : World :=
  mkWorld (table w) (isChargingShot w) p (isBallsMoving w)
    (nextMesh w) (calls w).

(** Body of the loop of [update]. *)
Definition stepBall (dt : float) (i : nat) (w : World) : option World :=
  if negb (get (isPocketed (table w)) i) then moveBall i dt w else Some w.

Definition update (dt : float) (w : World) : option World :=
  let w :=
    if isChargingShot w then
      set_shotChargeProgress w
        (std_min (shotChargeProgress w + dt / Params.Shot.chargeTime) f1)
    else w in
  let w := call (updateProgressBar (shotChargeProgress w)) w in
  if isBallsMoving w then
    w <- forM (seq 0 7) (stepBall dt) w ;;
    Some (if negb (truthy (Table_speedSum (table w)))
          then set_isBallsMoving w false else w)
  else Some w.

Definition mouseButtonPressed (x y : float) (w : World) : World :=
  if negb (isBallsMoving w) then set_isChargingShot w true else w.

Definition mouseButtonReleased (x y : float) (w : World) : World :=
  if negb (isBallsMoving w) then
    let t := set_dir (table w) 0
               (mkVector2 (x - vx (pos (table w) 0)) (y - vy (pos (table w) 0))) in
    let t := set_dir t 0 (Vector2_normalize (dir t 0)) in
    let t := set_speed t 0 (shotChargeProgress w * Params.Table.width) in
    let w := with_table w t in
    let w := set_isBallsMoving w true in
    let w := set_isChargingShot w false in
    set_shotChargeProgress w f0
  else w.

End Game.

Close Scope f32_scope.

Import Game.

(** States reachable from [init()] by calls of the public interface. *)
Inductive Reachable : World -> Prop :=
| reach_init : forall w, init start = Some w -> Reachable w
| reach_update : forall dt w w',
    Reachable w -> update dt w = Some w' -> Reachable w'
| reach_pressed : forall x y w,
    Reachable w -> Reachable (mouseButtonPressed x y w)
| reach_released : forall x y w,
    Reachable w -> Reachable (mouseButtonReleased x y w).

(** The three modes of the controller, read off the two flags. *)
Inductive Mode : Type := Idle | ChargingShot | BallsMoving.

Definition in_mode (m : Mode) (w : World) : Prop :=
  match m with
  | Idle => isChargingShot w = false /\ isBallsMoving w = false
  | ChargingShot => isChargingShot w = true
  | BallsMoving => isBallsMoving w = true
  end.

(** The table that [init] builds when the next free handle is [n]. *)
Definition fresh_table (n : nat) : Table :=
  mkTable Params.Table.ballsPositions (fill (mkVector2 f0 f0)) (fill f0)
    (fill false)
    (Array7 (Some (6 + n)) (Some (7 + n)) (Some (8 + n)) (Some (9 + n))
       (Some (10 + n)) (Some (11 + n)) (Some (12 + n)))
    [Some n; Some (1 + n); Some (2 + n); Some (3 + n); Some (4 + n);
     Some (5 + n)].

(** The state right after [init()]. *)
Definition initial : World :=
  Eval vm_compute in
    match init start with Some w => w | None => start end.

(** A charge held for half a second from the initial state. *)
Definition half_charged : World :=
  Eval vm_compute in
    match update f0_5 (mouseButtonPressed f0 f0 initial) with
    | Some w => w
    | None => start
    end.

(** A finite value or a zero: neither an infinity nor a NaN. *)
Definition is_finite (x : float) : bool :=
  match x with
  | S754_finite _ _ _ | S754_zero _ => true
  | _ => false
  end.




(** A time step [dt >= +0] that is finite. *)
Definition nonneg_finite (x : float) : bool :=
  match x with
  | S754_zero false | S754_finite false _ _ => true
  | _ => false
  end.

(** Every value but the negative zero: [x + 0.f] is [x] itself. *)
Definition not_neg_zero (x : float) : bool :=
  match x with S754_zero true => false | _ => true end.

(** The first part of [update]: the charge advances and the progress bar
    is refreshed (the two statements before [if ( isBallsMoving )]). *)
Definition begin_frame (dt : float) (w : World) : World :=
  let w :=
    if isChargingShot w then
      set_shotChargeProgress w
        (std_min (F32.add (shotChargeProgress w)
                    (F32.div dt Params.Shot.chargeTime)) f1)
    else w in
  call (updateProgressBar (shotChargeProgress w)) w.

(** What [placeMesh] is called with when ball [i] of table [t] is shown
    at its current position. *)
Definition show_ball (t : Table) (i : nat) : Call :=
  placeMesh (get (balls t) i) (vx (pos t i)) (vy (pos t i)) f0.

(** The initial layout with the cue ball put on the first pocket while
    the balls are moving. *)
Definition cue_on_pocket : World :=
  set_isBallsMoving
    (with_table initial
       (set_pos (table initial) 0 (nth 0 Params.Table.pocketsPositions (mkVector2 f0 f0))))
    true.

(** One sixtieth of a second, the frame time at [targetFPS]. *)
Definition dt60 : float := Eval vm_compute in F32.lit 1 60.

(** [x] is a zero, a finite value or an infinity of sign [s]. *)
Definition has_sign (s : bool) (x : float) : Prop :=
  match x with
  | S754_zero s' | S754_finite s' _ _ | S754_infinity s' => s' = s
  | S754_nan => False
  end.

(** Invariant of the reachable states: a charge is never in progress
    while the balls move, and the charge is empty unless one is in
    progress. *)
Definition controller_inv (w : World) : Prop :=
  (isChargingShot w = true -> isBallsMoving w = false) /\
  (isChargingShot w = false -> shotChargeProgress w = f0).

(** The controller flags are untouched. *)
Definition same_flags (w w' : World) : Prop :=
  isChargingShot w' = isChargingShot w /\
  shotChargeProgress w' = shotChargeProgress w /\
  isBallsMoving w' = isBallsMoving w.

(** Only the call log differs. *)
Definition same_but_calls (w w' : World) : Prop :=
  table w' = table w /\ same_flags w w' /\ nextMesh w' = nextMesh w.

(** The reading of "skips all remaining simulation steps for that frame
    (no further ball is processed)": once the cue ball's step has reset
    the table, the frame presents nothing more. *)
Definition frame_stops_at_reset (dt : float) (w : World) : Prop :=
  exists wr w',
    moveBall 0 dt (begin_frame dt w) = Some wr /\
    update dt w = Some w' /\
    calls w' = calls wr.

(** The four inward-offset edges that [checkBorders] tests against. *)
Definition y_min : float :=
  Eval vm_compute in F32.add (F32.mul (F32.neg f0_5) Params.Table.height) Params.Ball.radius.
Definition y_max : float :=
  Eval vm_compute in F32.sub (F32.mul f0_5 Params.Table.height) Params.Ball.radius.
Definition x_min : float :=
  Eval vm_compute in F32.add (F32.mul (F32.neg f0_5) Params.Table.width) Params.Ball.radius.
Definition x_max : float :=
  Eval vm_compute in F32.sub (F32.mul f0_5 Params.Table.width) Params.Ball.radius.

(** [x_min <= x <= x_max] and [y_min <= y <= y_max], as C++ comparisons. *)
Definition inside (p : Vector2) : bool :=
  F32.leb x_min (vx p) && F32.leb (vx p) x_max &&
  F32.leb y_min (vy p) && F32.leb (vy p) y_max.

(** Where a pocketed ball is parked: [x = 2 * width; y = x]. *)
Definition sentinel : Vector2 :=
  Eval vm_compute in
    mkVector2 (F32.mul f2 Params.Table.width) (F32.mul f2 Params.Table.width).

(** The effect of the pocketing branch of [moveBall] on a non-cue ball. *)
Definition pocketed (i : nat) (w : World) : World :=
  with_table (call (destroyMesh (get (balls (table w)) i)) w)
    (set_isPocketed
       (set_speed (set_pos (set_ball (table w) i None) i sentinel) i f0)
       i true).

(** Position, flag and handle of ball [i] are the same in [w] and [w']. *)
Definition keeps (i : nat) (w w' : World) : Prop :=
  pos (table w') i = pos (table w) i /\
  get (isPocketed (table w')) i = get (isPocketed (table w)) i /\
  get (balls (table w')) i = get (balls (table w)) i.

(** What a step on ball [k] may change in the table: only the position
    of ball [k], and directions and speeds. *)
Definition frame_of (k : nat) (t t' : Table) : Prop :=
  isPocketed t' = isPocketed t /\
  balls t' = balls t /\
  pockets t' = pockets t /\
  forall i, i < 7 -> i <> k -> pos t' i = pos t i.


(** The initial layout with ball 1 on the third pocket, while the balls
    are moving. *)
Definition one_on_pocket : World :=
  set_isBallsMoving
    (with_table initial
       (set_pos (table initial) 1
          (nth 2 Params.Table.pocketsPositions (mkVector2 f0 f0))))
    true.

(** Ball 1 beyond the top edge while heading back down (as after a
    collision pushed it out): position (3, 4), direction (0, -1),
    speed 1; and its mirror image beyond the bottom edge. *)
Definition top_crossing : Table :=
  set_speed
    (set_dir (set_pos (table initial) 1 (mkVector2 (F32.of_Z 3) (F32.of_Z 4)))
       1 (mkVector2 f0 fm1))
    1 f1.

Definition bottom_crossing : Table :=
  set_speed
    (set_dir (set_pos (table initial) 1 (mkVector2 (F32.of_Z 3) (F32.of_Z (-4))))
       1 (mkVector2 f0 f1))
    1 f1.

(** The loss that a border check with the absolute value on every edge
    would leave of speed [s] for a perpendicular component [d]. *)
Definition speed_after_abs_loss (s d : float) : float :=
  F32.sub s (F32.mul (F32.mul f0_15 s) (F32.add f1 (abs d))).

(** The distance between the centers of balls [i] and [j]. *)
Definition center_distance (t : Table) (i j : nat) : float :=
  Vector2_length
    (mkVector2 (F32.sub (vx (pos t j)) (vx (pos t i)))
               (F32.sub (vy (pos t j)) (vy (pos t i)))).

(** The initial layout with ball 1 moved next to the cue ball, the two
    centers 0.5 apart (less than [2 * radius]), every ball at rest. *)
Definition resting_overlap : World :=
  set_isBallsMoving
    (with_table initial
       (set_pos (table initial) 1 (mkVector2 (F32.of_Z (-4)) f0)))
    true.

(** The same two balls running into each other head-on, the cue ball at
    speed 0.85 and ball 1 at speed 0.15. *)
Definition head_on : World :=
  let t := table resting_overlap in
  let t := set_speed (set_dir t 0 (mkVector2 f1 f0)) 0 f0_85 in
  let t := set_speed (set_dir t 1 (mkVector2 fm1 f0)) 1 f0_15 in
  with_table resting_overlap t.

Definition nan_vector : Vector2 := mkVector2 S754_nan S754_nan.

(** [n] consecutive frames of length [dt]. *)
Fixpoint updates (n : nat) (dt : float) (w : World) : option World :=
  match n with
  | 0 => Some w
  | S k => w' <- update dt w ;; updates k dt w'
  end.

(** A fully charged shot from the initial layout, released at [(x, y)]. *)
Definition full_shot (x y : float) : World :=
  match update f1 (mouseButtonPressed f0 f0 initial) with
  | Some w => mouseButtonReleased x y w
  | None => initial
  end.

(** [checkBorders] on one coordinate: the two tests in their order. *)
Definition clamp (lo hi v : float) : float :=
  let v := if F32.ltb v lo then lo else v in
  if F32.ltb hi v then hi else v.

(** The tests of [checkBorders] and [checkBallCollision], as predicates:
    ball [i] is clear of the four edges, and apart from every other
    ball. *)
Definition borders_clear (i : nat) (t : Table) : bool :=
  negb (F32.ltb (vy (pos t i)) y_min) && negb (F32.ltb y_max (vy (pos t i))) &&
  negb (F32.ltb (vx (pos t i)) x_min) && negb (F32.ltb x_max (vx (pos t i))).

Definition overlaps (i j : nat) (t : Table) : bool :=
  F32.ltb (center_distance t i j) (F32.mul f2 Params.Ball.radius).

Definition apart (i : nat) (t : Table) : bool :=
  forallb (fun j => Nat.eqb j i || negb (overlaps i j t)) (seq 0 7).


(** The friction step: [max(speedModulus - 0.05f * width * dt, 0.f)]. *)
Definition friction (dt v : float) : float :=
  std_max (F32.sub v (F32.mul (F32.mul f0_05 Params.Table.width) dt)) f0.




(** The half-charged shot released due east: the cue ball leaves with
    direction (1, 0) and speed 7.5. *)
Definition east_shot : World := mouseButtonReleased f0 f0 half_charged.



(** No pocket and no ball handle is live. *)
Definition handles_free (t : Table) : bool :=
  forallb is_null (pockets t) && forallb is_null (to_list (balls t)).

(** The calls that [Game::init] makes when the next free handle is [n],
    in program order: frame rate and background, then a mesh created
    and placed for each of the six pockets, then for each of the seven
    balls. *)
Definition init_calls (n : nat) : list Call :=
  [setTargetFPS Params.System.targetFPS;
   setupBackground Params.Table.width Params.Table.height] ++
  flat_map
    (fun i =>
       let p := nth i Params.Table.pocketsPositions (mkVector2 f0 f0) in
       [createPocketMesh Params.Table.pocketRadius (i + n);
        placeMesh (Some (i + n)) (vx p) (vy p) f0])
    (seq 0 6) ++
  flat_map
    (fun i =>
       let p := get Params.Table.ballsPositions i in
       [createBallMesh Params.Ball.radius (6 + i + n);
        placeMesh (Some (6 + i + n)) (vx p) (vy p) f0])
    (seq 0 7).

(** The calls that [Table::deinit] makes on table [t], in program order:
    every pocket entry is destroyed, then every ball handle that is not
    null. *)
Definition deinit_calls (t : Table) : list Call :=
  map destroyMesh (pockets t) ++
  map destroyMesh (filter (fun m => negb (is_null m)) (to_list (balls t))).

(** Bookkeeping of the pocketed balls: the cue ball is never flagged, a
    flagged ball is parked on the sentinel with a null handle, an
    unflagged ball has a live handle, and the six pockets are live. *)
Definition table_inv (t : Table) : Prop :=
  get (isPocketed t) 0 = false /\
  (forall i, i < 7 ->
     (get (isPocketed t) i = true ->
        pos t i = sentinel /\ get (balls t) i = None) /\
     (get (isPocketed t) i = false -> get (balls t) i <> None)) /\
  length (pockets t) = 6 /\
  forallb (fun m => negb (is_null m)) (pockets t) = true.

(** A presentation call that is handed a null mesh. *)
Definition null_call (c : Call) : bool :=
  match c with
  | placeMesh None _ _ _ | destroyMesh None => true
  | _ => false
  end.

(** A NaN, or a zero, finite value or infinity with a clear sign bit. *)
Definition nonneg_or_nan (x : float) : bool :=
  match x with
  | S754_nan => true
  | S754_zero s | S754_infinity s | S754_finite s _ _ => negb s
  end.

(** [!(x < 0)]: the value is not below zero (it may be NaN). *)
Definition not_negative (x : float) : bool := negb (F32.ltb x f0).

(** Every listed ball that is not flagged pocketed has a speed that is
    not below zero. *)
Definition speeds_not_negative (done : nat -> Prop) (t : Table) : Prop :=
  forall i, i < 7 -> done i -> get (isPocketed t) i = false ->
    not_negative (speed t i) = true.

(** One of the two coordinates is NaN. *)
Definition has_nan (v : Vector2) : bool := is_nan (vx v) || is_nan (vy v).

(** A zero of either sign, or NaN. *)
Definition zero_or_nan (x : float) : bool :=
  match x with
  | S754_zero _ | S754_nan => true
  | _ => false
  end.

Definition is_zero (x : float) : bool :=
  match x with S754_zero _ => true | _ => false end.

(** Play from [w]: any sequence of calls of [update], [mouseButtonPressed]
    and [mouseButtonReleased]. *)
Inductive Play : World -> World -> Prop :=
| play_stop : forall w, Play w w
| play_update : forall dt w w1 w2,
    Play w w1 -> update dt w1 = Some w2 -> Play w w2
| play_pressed : forall x y w w1,
    Play w w1 -> Play w (mouseButtonPressed x y w1)
| play_released : forall x y w w1,
    Play w w1 -> Play w (mouseButtonReleased x y w1).

(** The pointer released exactly on the cue ball's centre, from the
    initial state. *)
Definition shot_at_itself : World :=
  mouseButtonReleased (vx (pos (table initial) 0)) (vy (pos (table initial) 0))
    (mouseButtonPressed f0 f0 initial).

(** A charge built up by a frame whose time step is NaN, released at
    the table centre, and one frame of play. *)
Definition nan_charge_shot : World :=
  match update S754_nan (mouseButtonPressed f0 f0 initial) with
  | Some w =>
      match update dt60 (mouseButtonReleased f0 f0 w) with
      | Some w' => w'
      | None => initial
      end
  | None => initial
  end.

(* ================================================================== *)
(** * Arrays *)
(* ================================================================== *)

Ltac index_cases i :=
  do 7 (destruct i as [|i]; [try reflexivity; try congruence; try lia|]);
  try reflexivity; try lia.

Lemma get_set_same : forall A (a : array7 A) i v,
  i < 7 -> get (set a i v) i = v.
Proof. intros A a i v Hi. index_cases i. Qed.

Lemma get_set_other : forall A (a : array7 A) i j v,
  i <> j -> j < 7 -> get (set a i v) j = get a j.
Proof.
  intros A a i j v Hij Hj.
  do 7 (destruct j as [|j]; [index_cases i|]); lia.
Qed.

(* ================================================================== *)
(** * Loops *)
(* ================================================================== *)

Section LoopInvariant.

Variable R : World -> World -> Prop.
Hypothesis R_refl : forall w, R w w.
Hypothesis R_trans : forall a b c, R a b -> R b c -> R a c.

Lemma forM_rel : forall body,
  (forall i w w', body i w = Some w' -> R w w') ->
  forall idx w w', forM idx body w = Some w' -> R w w'.
Proof.
  intros body Hbody idx; induction idx as [|i rest IH]; simpl; intros w w' H.
  - inversion H; subst; apply R_refl.
  - destruct (body i w) as [w1|] eqn:E; simpl in H; [|discriminate].
    eapply R_trans; [eapply Hbody; eassumption | eapply IH; eassumption].
Qed.

End LoopInvariant.

Lemma bind_Some : forall A B (a : A) (f : A -> option B), bind (Some a) f = f a.
Proof. reflexivity. Qed.

Lemma forM_cons : forall body i rest w,
  forM (i :: rest) body w = bind (body i w) (forM rest body).
Proof. reflexivity. Qed.

Lemma same_flags_refl : forall w, same_flags w w.
Proof. intros w; repeat split. Qed.

Lemma same_flags_trans : forall a b c,
  same_flags a b -> same_flags b c -> same_flags a c.
Proof.
  unfold same_flags; intros a b c (H1 & H2 & H3) (H4 & H5 & H6).
  repeat split; congruence.
Qed.

Lemma fold_call_flags : forall (f : Mesh -> bool) l w,
  same_flags w
    (fold_left (fun w m => if f m then w else call (destroyMesh m) w) l w).
Proof.
  intros f l; induction l as [|m l IH]; intros w; simpl.
  - apply same_flags_refl.
  - eapply same_flags_trans; [|apply IH].
    destruct (f m); repeat split.
Qed.

Lemma deinit_flags : forall w, same_flags w (deinit w).
Proof.
  intros w; unfold deinit, Table_deinit.
  eapply same_flags_trans;
    [apply (fold_call_flags (fun _ => false))|].
  eapply same_flags_trans; [apply (fold_call_flags is_null)|].
  repeat split.
Qed.

Lemma bind_some : forall A B (m : option A) (f : A -> option B) b,
  bind m f = Some b -> exists a, m = Some a /\ f a = Some b.
Proof. intros A B [a|] f b H; simpl in H; [eauto | discriminate]. Qed.

Lemma Table_init_flags : forall w w', Table_init w = Some w' -> same_flags w w'.
Proof.
  intros w w'; unfold Table_init; intros H.
  apply bind_some in H. destruct H as (w2 & E & H).
  apply (forM_rel same_flags same_flags_refl same_flags_trans) in E.
  - apply (forM_rel same_flags same_flags_refl same_flags_trans) in H.
    + eapply same_flags_trans; [|eassumption].
      eapply same_flags_trans; [|eassumption]. repeat split.
    + clear; intros i w w'; unfold Table_init_ball, assert.
      destruct (is_null _); simpl; [|discriminate].
      intros H; inversion H; subst; repeat split.
  - clear; intros i w w'; unfold Table_init_pocket, assert.
    destruct (is_null _); simpl; [|discriminate].
    intros H; inversion H; subst; repeat split.
Qed.

Lemma init_flags : forall w w', init w = Some w' -> same_flags w w'.
Proof.
  intros w w' H; unfold init in H. apply Table_init_flags in H.
  eapply same_flags_trans; [|eassumption]. repeat split.
Qed.

Lemma moveBall_flags : forall i dt w w',
  moveBall i dt w = Some w' -> same_flags w w'.
Proof.
  intros i dt w w'; unfold moveBall.
  destruct (isInPocket i (table w)).
  - destruct (Nat.eqb i 0).
    + intros H. apply init_flags in H.
      eapply same_flags_trans; [apply deinit_flags | exact H].
    + intros H; inversion H; subst; repeat split.
  - intros H; inversion H; subst; repeat split.
Qed.

Lemma stepBall_flags : forall dt i w w',
  stepBall dt i w = Some w' -> same_flags w w'.
Proof.
  intros dt i w w'; unfold stepBall.
  destruct (negb _).
  - apply moveBall_flags.
  - intros H; inversion H; subst; apply same_flags_refl.
Qed.

Lemma frame_flags : forall dt idx w w',
  forM idx (stepBall dt) w = Some w' -> same_flags w w'.
Proof.
  intros dt idx w w'.
  apply (forM_rel same_flags same_flags_refl same_flags_trans).
  intros i; apply stepBall_flags.
Qed.

(* ================================================================== *)
(** * Controller state machine *)
(* ================================================================== *)

Lemma update_flags : forall dt w w',
  update dt w = Some w' ->
  isChargingShot w' = isChargingShot w /\
  (isBallsMoving w' = true -> isBallsMoving w = true) /\
  (isChargingShot w = false -> shotChargeProgress w' = shotChargeProgress w).
Proof.
  intros dt w w'; unfold update.
  set (w1 := if isChargingShot w then _ else w).
  assert (H1 : isChargingShot w1 = isChargingShot w /\
               isBallsMoving w1 = isBallsMoving w /\
               (isChargingShot w = false ->
                shotChargeProgress w1 = shotChargeProgress w)).
  { unfold w1; destruct (isChargingShot w) eqn:E; simpl; repeat split; auto.
    discriminate. }
  destruct H1 as (Hc & Hm & Hp).
  set (w2 := call _ w1).
  destruct (isBallsMoving w2) eqn:Em.
  - destruct (forM (seq 0 7) (stepBall dt) w2) as [w3|] eqn:E; simpl;
      [|discriminate].
    apply frame_flags in E. destruct E as (E1 & E2 & E3).
    intros H; inversion H; subst; clear H.
    destruct (negb _); simpl; rewrite ?E1, ?E2, ?E3; unfold w2; simpl;
      repeat split; auto; try discriminate;
      intros _; rewrite <- Hm; exact Em.
  - intros H; inversion H; subst; clear H. unfold w2; simpl.
    repeat split; auto. intros H; unfold w2 in Em; simpl in Em. congruence.
Qed.

Lemma reachable_inv : forall w, Reachable w -> controller_inv w.
Proof.
  induction 1 as [w H | dt w w' _ IH H | x y w _ IH | x y w _ IH].
  - apply init_flags in H. destruct H as (H1 & H2 & H3).
    split; intros.
    + rewrite H3; reflexivity.
    + rewrite H2; reflexivity.
  - apply update_flags in H. destruct H as (Hc & Hm & Hp).
    destruct IH as (I1 & I2). split; intros E.
    + rewrite Hc in E. specialize (I1 E).
      destruct (isBallsMoving w') eqn:M; auto.
      specialize (Hm eq_refl). congruence.
    + rewrite Hc in E. rewrite (Hp E). auto.
  - destruct IH as (I1 & I2). unfold mouseButtonPressed.
    destruct (isBallsMoving w) eqn:M; simpl.
    + split; intros E; [specialize (I1 E); congruence | auto].
    + split; simpl; intros E; [exact M | discriminate].
  - destruct IH as (I1 & I2). unfold mouseButtonReleased.
    destruct (isBallsMoving w) eqn:M; simpl.
    + split; intros E; [specialize (I1 E); congruence | auto].
    + split; simpl; intros E; [discriminate | reflexivity].
Qed.

(** C9: in every state reachable from [init()] by [update],
    [mouseButtonPressed] and [mouseButtonReleased] calls, [isChargingShot]
    and [isBallsMoving] are never both true, so exactly one of the modes
    charging, balls-moving and idle (both flags false) holds. *)
Theorem charging_excludes_moving : forall w,
  Reachable w ->
  ~ (isChargingShot w = true /\ isBallsMoving w = true) /\
  ((in_mode ChargingShot w /\ ~ in_mode BallsMoving w /\ ~ in_mode Idle w) \/
   (in_mode BallsMoving w /\ ~ in_mode ChargingShot w /\ ~ in_mode Idle w) \/
   (in_mode Idle w /\ ~ in_mode ChargingShot w /\ ~ in_mode BallsMoving w)).
Proof.
  intros w Hr. destruct (reachable_inv _ Hr) as (I1 & _). simpl.
  destruct (isChargingShot w) eqn:C; destruct (isBallsMoving w) eqn:M;
    try (specialize (I1 eq_refl); discriminate).
  - split; [intros (_ & E); discriminate|].
    left; repeat split; try discriminate. intros (E & _); discriminate.
  - split; [intros (E & _); discriminate|].
    right; left; repeat split; try discriminate. intros (_ & E); discriminate.
  - split; [intros (E & _); discriminate|].
    right; right; repeat split; discriminate.
Qed.

Lemma init_start : init start = Some initial.
Proof. reflexivity. Qed.

Lemma reachable_initial : Reachable initial.
Proof. apply reach_init, init_start. Qed.

Lemma reachable_half_charged : Reachable half_charged.
Proof.
  apply reach_update with (dt := f0_5) (w := mouseButtonPressed f0 f0 initial).
  - apply reach_pressed, reachable_initial.
  - reflexivity.
Qed.

Lemma charging_excludes_moving_witness :
  Reachable half_charged /\
  ~ (isChargingShot half_charged = true /\ isBallsMoving half_charged = true).
Proof.
  split; [exact reachable_half_charged|].
  exact (proj1 (charging_excludes_moving _ reachable_half_charged)).
Defined.

(* ================================================================== *)
(** * Releasing the shot *)
(* ================================================================== *)

Lemma sub_diag : forall x, is_finite x = true -> F32.sub x x = f0.
Proof.
  intros [s| | |s m e]; simpl; try discriminate; intros _.
  - destruct s; reflexivity.
  - unfold F32.sub, SFsub. rewrite Z.sub_diag. reflexivity.
Qed.











(* ================================================================== *)
(** * Signs of rounded results *)
(* ================================================================== *)

Lemma shr_1_nonneg : forall mrs, (0 <= shr_m mrs)%Z -> (0 <= shr_m (shr_1 mrs))%Z.
Proof.
  intros [m r s]; simpl; destruct m as [|[p|p|]|[p|p|]]; simpl; lia.
Qed.

Lemma iter_shr_1_nonneg : forall n mrs,
  (0 <= shr_m mrs)%Z -> (0 <= shr_m (iter_pos shr_1 n mrs))%Z.
Proof.
  induction n as [n IH|n IH|]; simpl; intros mrs H.
  - apply IH, IH, shr_1_nonneg, H.
  - apply IH, IH, H.
  - apply shr_1_nonneg, H.
Qed.

Lemma shr_fexp_nonneg : forall prec emax m e l,
  (0 <= m)%Z -> (0 <= shr_m (fst (shr_fexp prec emax m e l)))%Z.
Proof.
  intros prec emax m e l H; unfold shr_fexp, shr.
  assert (H0 : (0 <= shr_m (shr_record_of_loc m l))%Z)
    by (destruct l as [|[| |]]; simpl; exact H).
  destruct (_ - e)%Z; simpl; auto using iter_shr_1_nonneg.
Qed.

Lemma round_nearest_even_nonneg : forall m l,
  (0 <= m)%Z -> (0 <= round_nearest_even m l)%Z.
Proof.
  intros m l H; unfold round_nearest_even.
  destruct l as [|[| |]]; try destruct (Z.even m); lia.
Qed.

Lemma binary_round_aux_sign : forall prec emax s m e l,
  (0 <= m)%Z -> has_sign s (binary_round_aux prec emax s m e l).
Proof.
  intros prec emax s m e l H; unfold binary_round_aux.
  pose proof (shr_fexp_nonneg prec emax m e l H) as H1.
  destruct (shr_fexp prec emax m e l) as [mrs' e']; simpl in H1.
  pose proof (shr_fexp_nonneg prec emax
                (round_nearest_even (shr_m mrs') (loc_of_shr_record mrs'))
                e' loc_Exact
                (round_nearest_even_nonneg _ _ H1)) as H2.
  destruct (shr_fexp prec emax _ e' loc_Exact) as [mrs'' e'']; simpl in H2.
  destruct (shr_m mrs'') as [|p|p]; simpl.
  - reflexivity.
  - destruct (e'' <=? emax - prec)%Z; reflexivity.
  - lia.
Qed.

Lemma mul_sign : forall a b,
  has_sign false a -> a <> S754_infinity false -> nonneg_finite b = true ->
  has_sign false (F32.mul a b).
Proof.
  intros [sa|sa| |sa ma ea] [[|]| | |[|] mb eb]; simpl;
    try discriminate; try contradiction; intros Ha Hinf _; subst;
    try reflexivity; try congruence.
  apply binary_round_aux_sign; lia.
Qed.

(* ================================================================== *)
(** * A ball at rest *)
(* ================================================================== *)

Lemma add_zero : forall x, not_neg_zero x = true -> F32.add x f0 = x.
Proof. intros [[|]|[|]| |s m e]; simpl; try discriminate; reflexivity. Qed.

Lemma rest_displacement : forall dt,
  nonneg_finite dt = true -> F32.mul (F32.mul f0 f0) dt = f0.
Proof. intros [[|]| | |[|] m e]; simpl; try discriminate; reflexivity. Qed.

Lemma rest_friction : forall dt,
  nonneg_finite dt = true ->
  std_max (F32.sub f0 (F32.mul (F32.mul f0_05 Params.Table.width) dt)) f0 = f0.
Proof.
  intros dt Hdt.
  assert (H : has_sign false (F32.mul (F32.mul f0_05 Params.Table.width) dt)).
  { apply mul_sign; [reflexivity | discriminate | exact Hdt]. }
  destruct (F32.mul (F32.mul f0_05 Params.Table.width) dt) as [s|s| |s m e];
    simpl in H; subst; try contradiction; reflexivity.
Qed.

Lemma set_get_same : forall A (a : array7 A) i, set a i (get a i) = a.
Proof. intros A [x0 x1 x2 x3 x4 x5 x6] i. index_cases i. Qed.

Lemma set_pos_same : forall t i, set_pos t i (pos t i) = t.
Proof. intros [p d s f b k] i; unfold set_pos, pos; simpl. rewrite set_get_same. reflexivity. Qed.

Lemma set_speed_same : forall t i, set_speed t i (speed t i) = t.
Proof. intros [p d s f b k] i; unfold set_speed, speed; simpl. rewrite set_get_same. reflexivity. Qed.

Lemma with_table_same : forall w, with_table w (table w) = w.
Proof. intros [t c p m n cs]; reflexivity. Qed.

(** A ball at rest, clear of the pockets, the borders and the other
    balls, is left as it is by its simulation step: it is only shown
    again at its position. *)
Lemma moveBall_at_rest : forall i dt w,
  isInPocket i (table w) = false ->
  checkBorders i (table w) = table w ->
  checkBallCollision i (table w) = table w ->
  dir (table w) i = mkVector2 f0 f0 ->
  speed (table w) i = f0 ->
  not_neg_zero (vx (pos (table w) i)) = true ->
  not_neg_zero (vy (pos (table w) i)) = true ->
  nonneg_finite dt = true ->
  moveBall i dt w = Some (call (show_ball (table w) i) w).
Proof.
  intros i dt w Hp Hb Hc Hd Hs Hx Hy Hdt.
  unfold moveBall. rewrite Hp, Hb, Hc, Hd, Hs. simpl vx; simpl vy.
  rewrite (rest_displacement dt Hdt), (add_zero _ Hx), (add_zero _ Hy).
  rewrite (rest_friction dt Hdt).
  replace (mkVector2 (vx (pos (table w) i)) (vy (pos (table w) i)))
    with (pos (table w) i) by (destruct (pos (table w) i); reflexivity).
  rewrite set_pos_same.
  assert (Hrest : set_speed (table w) i f0 = table w)
    by (rewrite <- Hs; apply set_speed_same).
  rewrite Hrest. unfold show_ball. destruct w; reflexivity.
Qed.

(* ================================================================== *)
(** * Pocketing the cue ball: the full reset *)
(* ================================================================== *)

Lemma update_unfold : forall dt w,
  update dt w =
    if isBallsMoving w then
      bind (forM (seq 0 7) (stepBall dt) (begin_frame dt w))
        (fun w' => Some (if negb (truthy (Table_speedSum (table w')))
                         then set_isBallsMoving w' false else w'))
    else Some (begin_frame dt w).
Proof.
  intros dt w; unfold update, begin_frame.
  destruct (isChargingShot w); reflexivity.
Qed.

Lemma begin_frame_table : forall dt w,
  table (begin_frame dt w) = table w /\
  nextMesh (begin_frame dt w) = nextMesh w /\
  isBallsMoving (begin_frame dt w) = isBallsMoving w /\
  isChargingShot (begin_frame dt w) = isChargingShot w.
Proof.
  intros dt w; unfold begin_frame; destruct (isChargingShot w) eqn:E;
    simpl; auto.
Qed.

Lemma fold_destroy_same : forall (f : Mesh -> bool) l w,
  same_but_calls w
    (fold_left (fun w m => if f m then w else call (destroyMesh m) w) l w).
Proof.
  intros f l; induction l as [|m l IH]; intros w; simpl.
  - repeat split.
  - destruct (IH (if f m then w else call (destroyMesh m) w))
      as (H1 & (H2 & H3 & H4) & H5).
    destruct (f m); simpl in *; repeat split; auto.
Qed.

(** [deinit(); init();] never trips an assertion and builds the
    canonical table. *)
Lemma reset_table : forall w,
  exists wr,
    init (deinit w) = Some wr /\
    table wr = fresh_table (nextMesh w) /\
    same_flags w wr /\
    nextMesh wr = 13 + nextMesh w.
Proof.
  intros w; unfold deinit, Table_deinit.
  set (w1 := fold_left _ (pockets (table w)) w).
  set (w2 := fold_left _ (to_list (balls (table w1))) w1).
  assert (H : same_but_calls w w2).
  { destruct (fold_destroy_same (fun _ => false) (pockets (table w)) w)
      as (A1 & (A2 & A3 & A4) & A5).
    destruct (fold_destroy_same is_null (to_list (balls (table w1))) w1)
      as (B1 & (B2 & B3 & B4) & B5).
    fold w1 in A1, A2, A3, A4, A5. fold w2 in B1, B2, B3, B4, B5.
    repeat split; congruence. }
  destruct H as (_ & (H2 & H3 & H4) & H5).
  destruct w2 as [t2 c2 p2 m2 n2 cs2]; simpl in *; subst.
  destruct (init (with_table
                    (mkWorld t2 (isChargingShot w) (shotChargeProgress w)
                       (isBallsMoving w) (nextMesh w) cs2) Table_default))
    as [wr|] eqn:E; vm_compute in E; [|discriminate].
  injection E as <-. eexists; split; [reflexivity|]. repeat split.
Qed.

Lemma stepBall_fresh : forall i dt w n,
  1 <= i <= 6 ->
  table w = fresh_table n ->
  nonneg_finite dt = true ->
  stepBall dt i w = Some (call (show_ball (fresh_table n) i) w).
Proof.
  intros i dt w n Hi Ht Hdt. unfold stepBall. rewrite <- Ht.
  destruct i as [|i]; [lia|].
  do 6 (destruct i as [|i];
        [ rewrite Ht at 1; simpl negb; cbv iota;
          apply moveBall_at_rest; rewrite ?Ht; try exact Hdt;
          vm_compute; reflexivity |]).
  lia.
Qed.

Lemma frame_fresh : forall dt idx w n,
  (forall i, In i idx -> 1 <= i <= 6) ->
  table w = fresh_table n ->
  nonneg_finite dt = true ->
  exists w',
    forM idx (stepBall dt) w = Some w' /\
    table w' = fresh_table n /\
    calls w' = rev (map (show_ball (fresh_table n)) idx) ++ calls w.
Proof.
  intros dt idx; induction idx as [|i rest IH]; intros w n Hidx Ht Hdt.
  - exists w; repeat split; auto.
  - rewrite forM_cons.
    rewrite (stepBall_fresh i dt w n (Hidx i (or_introl eq_refl)) Ht Hdt).
    rewrite bind_Some.
    destruct (IH (call (show_ball (fresh_table n) i) w) n) as (w' & E & T & C);
      auto.
    { intros j Hj; apply Hidx; right; exact Hj. }
    exists w'; repeat split; auto.
    rewrite C; simpl. rewrite <- app_assoc. reflexivity.
Qed.

Lemma cue_reset_frame : forall dt w,
  isBallsMoving w = true ->
  get (isPocketed (table w)) 0 = false ->
  isInPocket 0 (table w) = true ->
  nonneg_finite dt = true ->
  exists wr w',
    moveBall 0 dt (begin_frame dt w) = Some wr /\
    table wr = fresh_table (nextMesh w) /\
    update dt w = Some w' /\
    table w' = fresh_table (nextMesh w) /\
    isBallsMoving w' = false /\
    calls w' =
      map (show_ball (fresh_table (nextMesh w))) [6; 5; 4; 3; 2; 1] ++ calls wr.
Proof.
  intros dt w Hm Hf Hp Hdt.
  destruct (begin_frame_table dt w) as (Bt & Bn & Bm & _).
  destruct (reset_table (begin_frame dt w)) as (wr & Er & Tr & Fr & Nr).
  rewrite Bn in Tr.
  assert (E0 : moveBall 0 dt (begin_frame dt w) = Some wr).
  { unfold moveBall. rewrite Bt, Hp. exact Er. }
  destruct (frame_fresh dt (seq 1 6) wr (nextMesh w)) as (w6 & E6 & T6 & C6);
    auto.
  { intros i Hi; apply in_seq in Hi; lia. }
  exists wr. eexists. split; [exact E0|]. split; [exact Tr|].
  rewrite update_unfold, Hm.
  change (seq 0 7) with (0 :: seq 1 6). rewrite forM_cons.
  unfold stepBall at 1. rewrite Bt, Hf. simpl negb. cbv iota.
  rewrite E0, bind_Some, E6, bind_Some.
  rewrite T6.
  change (negb (truthy (Table_speedSum (fresh_table (nextMesh w))))) with true.
  cbv iota. split; [reflexivity|].
  split; [exact T6|]. split; [reflexivity | exact C6].
Qed.

(** C1 (amended): when the cue ball lies within [pocketRadius] of a
    pocket (and is not flagged pocketed) and the balls are moving, one
    [update(dt)] with a finite [dt >= 0] ends on the canonical layout:
    every ball at its canonical position, every [isPocketed] flag clear,
    every speed zero, whatever the prior state.  The cue ball's own step
    is the reset alone; the loop then still steps balls 1..6 of the
    rebuilt table, which shows each of them once more at its canonical
    position and changes nothing else. *)
Theorem cue_ball_pocketed_resets : forall dt w,
  isBallsMoving w = true ->
  get (isPocketed (table w)) 0 = false ->
  isInPocket 0 (table w) = true ->
  nonneg_finite dt = true ->
  exists wr w',
    moveBall 0 dt (begin_frame dt w) = Some wr /\
    update dt w = Some w' /\
    (forall i, i < 7 ->
       pos (table w') i = get Params.Table.ballsPositions i /\
       get (isPocketed (table w')) i = false /\
       speed (table w') i = f0) /\
    isBallsMoving w' = false /\
    calls w' = map (show_ball (table wr)) [6; 5; 4; 3; 2; 1] ++ calls wr.
Proof.
  intros dt w Hm Hf Hp Hdt.
  destruct (cue_reset_frame dt w Hm Hf Hp Hdt) as (wr & w' & E0 & Tr & E & T & M & C).
  exists wr, w'. repeat split; auto; try (rewrite T; index_cases i).
  rewrite Tr; exact C.
Qed.

Lemma cue_ball_pocketed_resets_witness :
  isBallsMoving cue_on_pocket = true /\
  isInPocket 0 (table cue_on_pocket) = true /\
  exists w', update dt60 cue_on_pocket = Some w' /\ isBallsMoving w' = false.
Proof.
  split; [reflexivity|]. split; [reflexivity|].
  destruct (cue_ball_pocketed_resets dt60 cue_on_pocket
              eq_refl eq_refl eq_refl eq_refl)
    as (wr & w' & _ & E & _ & M & _).
  exists w'; split; assumption.
Defined.

(** C1 as stated fails on its last part: after the reset the frame goes
    on and steps the six other balls (six more [placeMesh] calls follow
    the reset). *)
Lemma cue_reset_steps_other_balls :
  isBallsMoving cue_on_pocket = true /\
  isInPocket 0 (table cue_on_pocket) = true /\
  ~ frame_stops_at_reset dt60 cue_on_pocket.
Proof.
  split; [reflexivity|]. split; [reflexivity|].
  intros (wr & w' & E1 & E2 & C).
  vm_compute in E1, E2.
  injection E1 as <-. injection E2 as <-.
  apply (f_equal (@length Call)) in C. vm_compute in C. discriminate.
Qed.

(* ================================================================== *)
(** * What a simulation step leaves alone *)
(* ================================================================== *)

Lemma frame_of_refl : forall k t, frame_of k t t.
Proof. intros k t; repeat split. Qed.

Lemma frame_of_trans : forall k a b c,
  frame_of k a b -> frame_of k b c -> frame_of k a c.
Proof.
  intros k a b c (A1 & A2 & A3 & A4) (B1 & B2 & B3 & B4).
  repeat split; try congruence.
  intros i Hi Hk. rewrite B4, A4; auto.
Qed.

Lemma frame_set_pos : forall k t p, frame_of k t (set_pos t k p).
Proof.
  intros k t p; repeat split. intros i Hi Hk.
  unfold pos, set_pos; simpl. apply get_set_other; auto.
Qed.

Lemma frame_set_dir : forall k j t d, frame_of k t (set_dir t j d).
Proof. intros; repeat split. Qed.

Lemma frame_set_speed : forall k j t s, frame_of k t (set_speed t j s).
Proof. intros; repeat split. Qed.

Lemma checkBorders_shape : forall k t,
  exists p d s, checkBorders k t = set_speed (set_dir (set_pos t k p) k d) k s.
Proof.
  intros k t; unfold checkBorders.
  repeat match goal with
         | |- context [if ?c then _ else _] => destruct c
         end; do 3 eexists; reflexivity.
Qed.

Lemma checkBorders_frame : forall k t, frame_of k t (checkBorders k t).
Proof.
  intros k t. destruct (checkBorders_shape k t) as (p & d & s & ->).
  eapply frame_of_trans; [|apply frame_set_speed].
  eapply frame_of_trans; [apply frame_set_pos | apply frame_set_dir].
Qed.

Lemma collide_frame : forall k j t, frame_of k t (collide k j t).
Proof.
  intros k j t; unfold collide.
  destruct (Nat.eqb j k); [apply frame_of_refl|].
  match goal with
  | |- context [if ?c then _ else _] => destruct c
  end; [|apply frame_of_refl].
  repeat (eapply frame_of_trans;
          [|first [apply frame_set_speed | apply frame_set_dir]]).
  apply frame_set_pos.
Qed.

Lemma checkBallCollision_frame : forall k t,
  frame_of k t (checkBallCollision k t).
Proof.
  intros k t; unfold checkBallCollision, for_each.
  generalize (seq 0 7); intros l; revert t.
  induction l as [|j l IH]; intros t; simpl.
  - apply frame_of_refl.
  - eapply frame_of_trans; [apply collide_frame | apply IH].
Qed.

Lemma keeps_refl : forall i w, keeps i w w.
Proof. intros; repeat split. Qed.

Lemma keeps_trans : forall i a b c, keeps i a b -> keeps i b c -> keeps i a c.
Proof.
  intros i a b c (A1 & A2 & A3) (B1 & B2 & B3); repeat split; congruence.
Qed.

Lemma frame_keeps : forall k i w w',
  i < 7 -> i <> k -> frame_of k (table w) (table w') -> keeps i w w'.
Proof.
  intros k i w w' Hi Hk (F1 & F2 & F3 & F4).
  repeat split; [apply F4; auto | rewrite F1 | rewrite F2]; reflexivity.
Qed.

Lemma moveBall_pocket : forall i dt w,
  i <> 0 -> isInPocket i (table w) = true ->
  moveBall i dt w = Some (pocketed i w).
Proof.
  intros i dt w Hi Hp; unfold moveBall; rewrite Hp.
  destruct i as [|i]; [congruence|]. reflexivity.
Qed.

Lemma pocketed_keeps : forall k i w,
  i < 7 -> i <> k -> keeps i w (pocketed k w).
Proof.
  intros k i w Hi Hk.
  unfold keeps, pocketed, pos, set_isPocketed, set_speed, set_pos, set_ball,
    with_table, call.
  cbn [table ballsCurrentPositions isPocketed balls].
  rewrite !get_set_other by auto. repeat split.
Qed.

(** Unless it is the reset, the step of ball [k] leaves position, flag
    and handle of every other ball alone. *)
Lemma moveBall_keeps : forall k i dt w w',
  i < 7 -> i <> k ->
  (k = 0 -> isInPocket 0 (table w) = false) ->
  moveBall k dt w = Some w' -> keeps i w w'.
Proof.
  intros k i dt w w' Hi Hk Hreset H.
  destruct (isInPocket k (table w)) eqn:P.
  - assert (Hk0 : k <> 0).
    { intros ->. rewrite (Hreset eq_refl) in P. discriminate P. }
    rewrite (moveBall_pocket k dt w Hk0 P) in H.
    injection H as <-. apply pocketed_keeps; assumption.
  - unfold moveBall in H. rewrite P in H. injection H as <-.
    apply frame_keeps with (k := k); auto.
    cbn [table with_table call].
    eapply frame_of_trans; [|apply frame_set_speed].
    eapply frame_of_trans; [|apply frame_set_pos].
    eapply frame_of_trans;
      [apply checkBorders_frame | apply checkBallCollision_frame].
Qed.

Lemma stepBall_keeps : forall k i dt w w',
  i < 7 -> i <> k ->
  (k = 0 -> get (isPocketed (table w)) 0 = true \/
            isInPocket 0 (table w) = false) ->
  stepBall dt k w = Some w' -> keeps i w w'.
Proof.
  intros k i dt w w' Hi Hk Hreset; unfold stepBall.
  destruct (get (isPocketed (table w)) k) eqn:F; simpl.
  - intros H; inversion H; subst; apply keeps_refl.
  - apply moveBall_keeps; auto.
    intros ->. destruct (Hreset eq_refl) as [E|E]; congruence.
Qed.

Lemma frame_keeps_from : forall i dt idx w w',
  i < 7 -> ~ In i idx -> ~ In 0 idx ->
  forM idx (stepBall dt) w = Some w' -> keeps i w w'.
Proof.
  intros i dt idx; induction idx as [|k rest IH]; simpl; intros w w' Hi Hn H0 H.
  - inversion H; subst; apply keeps_refl.
  - destruct (stepBall dt k w) as [w1|] eqn:E; simpl in H; [|discriminate].
    eapply keeps_trans.
    + eapply stepBall_keeps; [exact Hi | | | exact E]; intuition congruence.
    + apply IH; auto.
Qed.

Lemma moveBall_total : forall i dt w, exists w', moveBall i dt w = Some w'.
Proof.
  intros i dt w; unfold moveBall.
  destruct (isInPocket i (table w)); [destruct (Nat.eqb i 0)|]; eauto.
  destruct (reset_table w) as (wr & E & _); eauto.
Qed.

Lemma stepBall_total : forall dt i w, exists w', stepBall dt i w = Some w'.
Proof.
  intros dt i w; unfold stepBall.
  destruct (negb _); eauto using moveBall_total.
Qed.

Lemma frame_total : forall dt idx w,
  exists w', forM idx (stepBall dt) w = Some w'.
Proof.
  intros dt idx; induction idx as [|i rest IH]; intros w; simpl; eauto.
  destruct (stepBall_total dt i w) as (w1 & ->). simpl. apply IH.
Qed.


Lemma isInPocket_pos : forall i t t',
  pos t' i = pos t i -> isInPocket i t' = isInPocket i t.
Proof. intros i t t' H; unfold isInPocket; rewrite H; reflexivity. Qed.

(* ================================================================== *)
(** * Pocketing a non-cue ball *)
(* ================================================================== *)







(* ================================================================== *)
(** * The border check *)
(* ================================================================== *)

(** C4 (defect of the code): the top and right edges take the loss
    [0.15 * speedModulus * (1 + component)] without the absolute value
    that the bottom and left edges use.  A ball beyond the top edge that
    already heads back (component -1) loses nothing and is turned
    outwards again, where the mirrored ball beyond the bottom edge is
    slowed to 0.7 of its speed. *)
Theorem top_edge_skips_abs :
  speed (checkBorders 1 top_crossing) 1 = f1 /\
  speed_after_abs_loss f1 (vy (dir top_crossing 1)) =
    S754_finite false 11744051 (-24) /\
  pos (checkBorders 1 top_crossing) 1 = mkVector2 (F32.of_Z 3) y_max /\
  dir (checkBorders 1 top_crossing) 1 = mkVector2 f0 f1 /\
  speed (checkBorders 1 bottom_crossing) 1 =
    speed_after_abs_loss f1 (vy (dir bottom_crossing 1)) /\
  pos (checkBorders 1 bottom_crossing) 1 = mkVector2 (F32.of_Z 3) y_min.
Proof. repeat split; vm_compute; reflexivity. Qed.

(* ================================================================== *)
(** * Ball-ball collisions *)
(* ================================================================== *)

(** C5 (defect of the code): [normalize] divides by the length without a
    guard.  Two balls at rest whose centers are 0.5 apart are not pushed
    apart by one frame: their new velocity vectors are zero, the
    directions become 0/0 = NaN and the integration step turns both
    positions into NaN, so no distance holds between them.  With the two
    balls head-on at speeds 0.85 and 0.15 the blended velocity of the
    cue ball cancels exactly and its direction is NaN as well. *)
Theorem resting_overlap_gives_nan :
  F32.ltb (center_distance (table resting_overlap) 0 1)
          (F32.mul f2 Params.Ball.radius) = true /\
  speed (table resting_overlap) 0 = f0 /\
  speed (table resting_overlap) 1 = f0 /\
  (exists w',
     update dt60 resting_overlap = Some w' /\
     pos (table w') 0 = nan_vector /\ pos (table w') 1 = nan_vector /\
     dir (table w') 0 = nan_vector /\ dir (table w') 1 = nan_vector /\
     F32.leb (F32.mul f2 Params.Ball.radius)
             (center_distance (table w') 0 1) = false) /\
  dir (checkBallCollision 0 (table head_on)) 0 = nan_vector.
Proof.
  split; [reflexivity|]. split; [reflexivity|]. split; [reflexivity|].
  split; [|vm_compute; reflexivity].
  eexists. split; [vm_compute; reflexivity|].
  repeat split.
Qed.

(* ================================================================== *)
(** * Comparisons *)
(* ================================================================== *)

Lemma compare_antisym : forall a b,
  SFcompare b a = option_map CompOpp (SFcompare a b).
Proof.
  intros [sa|sa| |sa ma ea] [sb|sb| |sb mb eb]; simpl;
    try reflexivity;
    try (destruct sa; reflexivity); try (destruct sb; reflexivity);
    try (destruct sa, sb; reflexivity).
  destruct sa, sb; simpl; try reflexivity;
    rewrite (Z.compare_antisym ea eb);
    destruct (ea ?= eb)%Z; simpl; try reflexivity;
    rewrite (Pos.compare_cont_antisym ma mb Eq); reflexivity.
Qed.

Lemma compare_defined : forall a b,
  is_nan a = false -> is_nan b = false -> exists c, SFcompare a b = Some c.
Proof.
  intros [sa|sa| |sa ma ea] [sb|sb| |sb mb eb]; simpl;
    try discriminate; eauto.
Qed.

Lemma not_ltb_leb : forall a b,
  is_nan a = false -> is_nan b = false ->
  F32.ltb a b = false -> F32.leb b a = true.
Proof.
  intros a b Ha Hb; unfold F32.ltb, F32.leb, SFltb, SFleb.
  rewrite (compare_antisym a b).
  destruct (compare_defined a b Ha Hb) as (c & ->); simpl.
  destruct c; simpl; congruence.
Qed.

Lemma clamp_between : forall lo hi v,
  is_nan lo = false -> is_nan hi = false ->
  F32.leb lo lo = true -> F32.leb hi hi = true -> F32.leb lo hi = true ->
  F32.ltb hi lo = false ->
  is_nan v = false ->
  F32.leb lo (clamp lo hi v) = true /\ F32.leb (clamp lo hi v) hi = true.
Proof.
  intros lo hi v Nlo Nhi Rlo Rhi Hle Hlt Nv; unfold clamp.
  destruct (F32.ltb v lo) eqn:E1.
  - rewrite Hlt. split; assumption.
  - destruct (F32.ltb hi v) eqn:E2.
    + split; assumption.
    + split; apply not_ltb_leb; assumption.
Qed.

Lemma checkBorders_pos : forall t i,
  i < 7 ->
  pos (checkBorders i t) i =
    mkVector2 (clamp x_min x_max (vx (pos t i)))
              (clamp y_min y_max (vy (pos t i))).
Proof.
  intros t i Hi; unfold checkBorders, clamp.
  change (F32.add (F32.mul (F32.neg f0_5) Params.Table.height)
            Params.Ball.radius) with y_min.
  change (F32.sub (F32.mul f0_5 Params.Table.height) Params.Ball.radius)
    with y_max.
  change (F32.add (F32.mul (F32.neg f0_5) Params.Table.width)
            Params.Ball.radius) with x_min.
  change (F32.sub (F32.mul f0_5 Params.Table.width) Params.Ball.radius)
    with x_max.
  destruct (F32.ltb (vy (pos t i)) y_min);
    match goal with
    | |- context [F32.ltb y_max ?y] => destruct (F32.ltb y_max y)
    end;
    destruct (F32.ltb (vx (pos t i)) x_min);
    match goal with
    | |- context [F32.ltb x_max ?x] => destruct (F32.ltb x_max x)
    end;
    unfold pos, set_speed, set_dir, set_pos;
    cbn [ballsCurrentPositions]; apply get_set_same; exact Hi.
Qed.

(** C2 (amended): the containment holds where the border check of the
    Simulation Step completes, not where the step ends.  For every ball
    whose coordinates are not NaN, [checkBorders] leaves
    [x] in [[-width/2 + radius, width/2 - radius]] and
    [y] in [[-height/2 + radius, height/2 - radius]]; the collision
    response and the integration that follow it in [moveBall] may carry
    the ball outside again until its next border check. *)
Theorem border_check_contains : forall t i,
  i < 7 ->
  is_nan (vx (pos t i)) = false ->
  is_nan (vy (pos t i)) = false ->
  inside (pos (checkBorders i t) i) = true.
Proof.
  intros t i Hi Nx Ny. rewrite (checkBorders_pos t i Hi).
  unfold inside; cbn [vx vy].
  destruct (clamp_between x_min x_max (vx (pos t i)))
    as (X1 & X2); try reflexivity; try exact Nx.
  destruct (clamp_between y_min y_max (vy (pos t i)))
    as (Y1 & Y2); try reflexivity; try exact Ny.
  rewrite X1, X2, Y1, Y2. reflexivity.
Qed.

Lemma border_check_contains_witness :
  inside (pos top_crossing 1) = false /\
  inside (pos (checkBorders 1 top_crossing) 1) = true.
Proof.
  split; [reflexivity|].
  apply (border_check_contains top_crossing 1); [lia | reflexivity | reflexivity].
Defined.

(** C2 as stated fails: eleven frames after a full shot to the west the
    cue ball, not pocketed, rests at x = -7.238..., left of
    [-width/2 + radius = -7.2], when [update] returns. *)
Lemma cue_ball_past_the_edge :
  exists w',
    updates 11 dt60 (full_shot (F32.of_Z (-10)) f0) = Some w' /\
    get (isPocketed (table w')) 0 = false /\
    F32.ltb (vx (pos (table w') 0)) x_min = true /\
    inside (pos (table w') 0) = false.
Proof.
  eexists. split; [vm_compute; reflexivity|]. repeat split.
Qed.

(* ================================================================== *)
(** * Frames without contact *)
(* ================================================================== *)

Lemma set_dir_same : forall t i, set_dir t i (dir t i) = t.
Proof.
  intros [p d s f b k] i; unfold set_dir, dir; simpl.
  rewrite set_get_same. reflexivity.
Qed.

Lemma vector_eta : forall v, mkVector2 (vx v) (vy v) = v.
Proof. intros [x y]; reflexivity. Qed.

Lemma checkBorders_clear : forall i t,
  borders_clear i t = true -> checkBorders i t = t.
Proof.
  intros i t H; unfold borders_clear in H.
  repeat (apply andb_prop in H; destruct H as (H & ?)).
  repeat match goal with
         | E : negb _ = true |- _ => apply negb_true_iff in E
         end.
  unfold checkBorders.
  change (F32.add (F32.mul (F32.neg f0_5) Params.Table.height)
            Params.Ball.radius) with y_min.
  change (F32.sub (F32.mul f0_5 Params.Table.height) Params.Ball.radius)
    with y_max.
  change (F32.add (F32.mul (F32.neg f0_5) Params.Table.width)
            Params.Ball.radius) with x_min.
  change (F32.sub (F32.mul f0_5 Params.Table.width) Params.Ball.radius)
    with x_max.
  repeat match goal with
         | E : ?c = false |- context [if ?c then _ else _] => rewrite E
         end.
  rewrite vector_eta, set_pos_same, set_dir_same, set_speed_same.
  reflexivity.
Qed.

Lemma collide_apart : forall i j t,
  Nat.eqb j i || negb (overlaps i j t) = true -> collide i j t = t.
Proof.
  intros i j t H; unfold collide.
  destruct (Nat.eqb j i); [reflexivity|]. simpl in H.
  apply negb_true_iff in H. unfold overlaps, center_distance in H.
  rewrite H. reflexivity.
Qed.

Lemma checkBallCollision_apart : forall i t,
  apart i t = true -> checkBallCollision i t = t.
Proof.
  intros i t; unfold apart, checkBallCollision, for_each.
  generalize (seq 0 7); intros l.
  induction l as [|j l IH]; simpl; intros H; [reflexivity|].
  apply andb_prop in H; destruct H as (Hj & Hl).
  rewrite (collide_apart i j t Hj). apply IH, Hl.
Qed.









(* ================================================================== *)
(** * Coming to rest *)
(* ================================================================== *)

Lemma update_total : forall dt w, exists w', update dt w = Some w'.
Proof.
  intros dt w. rewrite update_unfold.
  destruct (isBallsMoving w); [|eauto].
  destruct (frame_total dt (seq 0 7) (begin_frame dt w)) as (w1 & ->).
  rewrite bind_Some. eauto.
Qed.


Lemma updates_S : forall k dt w,
  updates (S k) dt w = bind (update dt w) (updates k dt).
Proof. reflexivity. Qed.






(* ================================================================== *)
(** * Further properties of the controller *)
(* ================================================================== *)

Lemma std_min_le : forall a b, F32.ltb b b = false -> F32.ltb b (std_min a b) = false.
Proof.
  intros a b Hb; unfold std_min.
  destruct (F32.ltb b a) eqn:E; assumption.
Qed.

Lemma update_progress : forall dt w w',
  update dt w = Some w' ->
  shotChargeProgress w' = shotChargeProgress (begin_frame dt w).
Proof.
  intros dt w w' H. rewrite update_unfold in H.
  destruct (isBallsMoving w).
  - apply bind_some in H. destruct H as (w1 & E & H).
    apply frame_flags in E. destruct E as (_ & E & _).
    injection H as <-. destruct (negb _); simpl; exact E.
  - injection H as <-. reflexivity.
Qed.

(** X1: the shot charge never exceeds 1.0: in every reachable state
    [1 < shotChargeProgress] is false, however long the charge is held
    and whatever the frame times were. *)
Theorem charge_never_exceeds_one : forall w,
  Reachable w -> F32.ltb f1 (shotChargeProgress w) = false.
Proof.
  induction 1 as [w H | dt w w' _ IH H | x y w _ IH | x y w _ IH].
  - apply init_flags in H. destruct H as (_ & H & _). rewrite H. reflexivity.
  - rewrite (update_progress dt w w' H). unfold begin_frame.
    destruct (isChargingShot w); cbn [shotChargeProgress call set_shotChargeProgress].
    + apply std_min_le. reflexivity.
    + exact IH.
  - unfold mouseButtonPressed. destruct (negb _); exact IH.
  - unfold mouseButtonReleased. destruct (negb _); [reflexivity | exact IH].
Qed.

Lemma charge_never_exceeds_one_witness :
  Reachable half_charged /\
  F32.ltb f1 (shotChargeProgress half_charged) = false.
Proof.
  split; [exact reachable_half_charged|].
  exact (charge_never_exceeds_one half_charged reachable_half_charged).
Defined.

(** X2: once a shot is released, further pointer events are ignored:
    a second release or a press right after [mouseButtonReleased]
    leaves the state as the first release made it, from any state. *)
Theorem pointer_ignored_after_release : forall x y x' y' w,
  mouseButtonReleased x' y' (mouseButtonReleased x y w)
    = mouseButtonReleased x y w /\
  mouseButtonPressed x' y' (mouseButtonReleased x y w)
    = mouseButtonReleased x y w.
Proof.
  intros x y x' y' w.
  assert (H : isBallsMoving (mouseButtonReleased x y w) = true).
  { unfold mouseButtonReleased. destruct (isBallsMoving w) eqn:E; simpl; auto. }
  split.
  - unfold mouseButtonReleased at 1. rewrite H. reflexivity.
  - unfold mouseButtonPressed. rewrite H. reflexivity.
Qed.

(** X3: no run of frames can trip the assertions of [Table::init]: the
    only call of [init] inside [update] is the cue-ball reset, which
    clears every handle with [deinit] first.  From any state, any number
    of updates returns. *)
Theorem updates_never_abort : forall n dt w,
  exists w', updates n dt w = Some w'.
Proof.
  induction n as [|n IH]; intros dt w.
  - exists w; reflexivity.
  - rewrite updates_S. destruct (update_total dt w) as (w1 & ->).
    rewrite bind_Some. apply IH.
Qed.

(* ================================================================== *)
(** * Table lifecycle *)
(* ================================================================== *)

Ltac live_aborts x H :=
  destruct x as [?|]; [vm_compute in H; discriminate H|].

Lemma init_needs_free_handles : forall w w',
  length (pockets (table w)) = 6 ->
  init w = Some w' -> handles_free (table w) = true.
Proof.
  intros [[ps ds ss fs [b0 b1 b2 b3 b4 b5 b6] pk] c p m n cs] w' Hlen H.
  cbn [table pockets] in Hlen.
  destruct pk as [|p0 [|p1 [|p2 [|p3 [|p4 [|p5 [|p6 pk]]]]]]];
    try discriminate Hlen.
  live_aborts p0 H. live_aborts p1 H. live_aborts p2 H.
  live_aborts p3 H. live_aborts p4 H. live_aborts p5 H.
  live_aborts b0 H. live_aborts b1 H. live_aborts b2 H. live_aborts b3 H.
  live_aborts b4 H. live_aborts b5 H. live_aborts b6 H.
  reflexivity.
Qed.

Lemma init_on_free_handles : forall w,
  length (pockets (table w)) = 6 ->
  handles_free (table w) = true ->
  init w =
    Some (mkWorld (fresh_table (nextMesh w)) (isChargingShot w)
            (shotChargeProgress w) (isBallsMoving w) (13 + nextMesh w)
            (rev (init_calls (nextMesh w)) ++ calls w)).
Proof.
  intros [[ps ds ss fs [b0 b1 b2 b3 b4 b5 b6] pk] c p m n cs] Hlen H.
  cbn [table pockets] in Hlen.
  destruct pk as [|p0 [|p1 [|p2 [|p3 [|p4 [|p5 [|p6 pk]]]]]]];
    try discriminate Hlen.
  destruct p0, p1, p2, p3, p4, p5; try discriminate H.
  destruct b0, b1, b2, b3, b4, b5, b6; try discriminate H.
  vm_compute. reflexivity.
Qed.

(** X4: [init] succeeds exactly when no pocket or ball handle is live;
    with a single live handle one of its assertions aborts. *)
Theorem init_succeeds_iff_no_live_handle : forall w,
  length (pockets (table w)) = 6 ->
  ((exists w', init w = Some w') <-> handles_free (table w) = true).
Proof.
  intros w Hlen; split.
  - intros (w' & H). exact (init_needs_free_handles w w' Hlen H).
  - intros H. rewrite (init_on_free_handles w Hlen H). eauto.
Qed.

Lemma init_succeeds_iff_no_live_handle_witness :
  length (pockets (table start)) = 6 /\
  handles_free (table start) = true /\
  (exists w', init start = Some w') /\
  handles_free (table initial) = false /\
  init initial = None.
Proof.
  split; [reflexivity|]. split; [reflexivity|].
  split; [exact (proj2 (init_succeeds_iff_no_live_handle start eq_refl) eq_refl)|].
  split; reflexivity.
Defined.

(** X5: on a table without live handles [init] builds the canonical
    layout whatever positions, directions, speeds and flags were there
    before: canonical positions, zero directions and speeds, no ball
    pocketed, six pocket and seven ball meshes created in that order,
    each placed once at its canonical position; the controller flags
    are left alone. *)
Theorem init_builds_canonical_table : forall w,
  length (pockets (table w)) = 6 ->
  handles_free (table w) = true ->
  exists w',
    init w = Some w' /\
    table w' = fresh_table (nextMesh w) /\
    calls w' = rev (init_calls (nextMesh w)) ++ calls w /\
    nextMesh w' = 13 + nextMesh w /\
    same_flags w w'.
Proof.
  intros w Hlen H. rewrite (init_on_free_handles w Hlen H).
  eexists; split; [reflexivity|]. repeat split.
Qed.

Lemma init_builds_canonical_table_witness :
  length (pockets (table start)) = 6 /\
  handles_free (table start) = true /\
  exists w', init start = Some w' /\ table w' = fresh_table 0.
Proof.
  split; [reflexivity|]. split; [reflexivity|].
  destruct (init_builds_canonical_table start eq_refl eq_refl)
    as (w' & E & T & _).
  exists w'; split; assumption.
Defined.

(** X6: a second [init] without a [deinit] in between always aborts on
    an assertion, and with the [deinit] it always succeeds. *)
Theorem init_twice_aborts : forall w w',
  length (pockets (table w)) = 6 ->
  init w = Some w' ->
  init w' = None /\ exists w'', init (deinit w') = Some w''.
Proof.
  intros w w' Hlen H.
  pose proof (init_needs_free_handles w w' Hlen H) as Hfree.
  rewrite (init_on_free_handles w Hlen Hfree) in H. injection H as <-.
  split.
  - vm_compute. reflexivity.
  - destruct (reset_table
                (mkWorld (fresh_table (nextMesh w)) (isChargingShot w)
                   (shotChargeProgress w) (isBallsMoving w) (13 + nextMesh w)
                   (rev (init_calls (nextMesh w)) ++ calls w)))
      as (w'' & E & _).
    exists w''; exact E.
Qed.

Lemma init_twice_aborts_witness :
  length (pockets (table start)) = 6 /\
  init start = Some initial /\
  init initial = None.
Proof.
  split; [reflexivity|]. split; [reflexivity|].
  exact (proj1 (init_twice_aborts start initial eq_refl eq_refl)).
Defined.

Lemma fold_destroy_calls : forall (f : Mesh -> bool) l w,
  calls (fold_left (fun w m => if f m then w else call (destroyMesh m) w) l w)
  = rev (map destroyMesh (filter (fun m => negb (f m)) l)) ++ calls w.
Proof.
  intros f l; induction l as [|m l IH]; intros w; simpl; [reflexivity|].
  rewrite IH. destruct (f m); simpl; [reflexivity|].
  rewrite <- app_assoc. reflexivity.
Qed.

Lemma filter_all : forall A (l : list A), filter (fun _ => negb false) l = l.
Proof. intros A l; induction l as [|a l IH]; simpl in *; congruence. Qed.

Lemma deinit_log : forall w,
  calls (deinit w) = rev (deinit_calls (table w)) ++ calls w /\
  same_flags w (deinit w) /\
  nextMesh (deinit w) = nextMesh w.
Proof.
  intros w. unfold deinit, Table_deinit.
  set (w1 := fold_left _ (pockets (table w)) w).
  set (w2 := fold_left _ (to_list (balls (table w1))) w1).
  assert (A : same_but_calls w w1)
    by exact (fold_destroy_same (fun _ => false) (pockets (table w)) w).
  assert (Ac : calls w1
               = rev (map destroyMesh
                        (filter (fun _ => negb false) (pockets (table w))))
                 ++ calls w)
    by exact (fold_destroy_calls (fun _ => false) (pockets (table w)) w).
  assert (B : same_but_calls w1 w2)
    by exact (fold_destroy_same is_null (to_list (balls (table w1))) w1).
  assert (Bc : calls w2
               = rev (map destroyMesh
                        (filter (fun m => negb (is_null m))
                           (to_list (balls (table w1)))))
                 ++ calls w1)
    by exact (fold_destroy_calls is_null (to_list (balls (table w1))) w1).
  destruct A as (At & Af & An). destruct B as (Bt & Bf & Bn).
  split; [|split].
  - cbn [calls with_table]. rewrite Bc, Ac, At, filter_all.
    unfold deinit_calls. rewrite rev_app_distr, app_assoc. reflexivity.
  - apply same_flags_trans with (b := w1); [exact Af|].
    destruct Bf as (B1 & B2 & B3). repeat split; assumption.
  - cbn [nextMesh with_table]. congruence.
Qed.

(** X7: [deinit] leaves the default table (every position, direction and
    speed zero, no flag, every handle null) and destroys every pocket
    entry, null or not, then each ball handle that is not null, once
    and in index order; it never passes a null ball handle to
    [destroyMesh] and touches no controller flag. *)
Theorem deinit_clears_table : forall w,
  table (deinit w) = Table_default /\
  calls (deinit w) = rev (deinit_calls (table w)) ++ calls w /\
  ~ In (destroyMesh None)
       (map destroyMesh
          (filter (fun m => negb (is_null m)) (to_list (balls (table w))))) /\
  same_flags w (deinit w) /\
  nextMesh (deinit w) = nextMesh w.
Proof.
  intros w. split; [reflexivity|].
  destruct (deinit_log w) as (C & F & N).
  split; [exact C|]. split; [|split; assumption].
  intros H. apply in_map_iff in H. destruct H as (m & E & H).
  apply filter_In in H. destruct H as (_ & H).
  injection E as ->. discriminate H.
Qed.

(* ================================================================== *)
(** * Bookkeeping of pocketed balls *)
(* ================================================================== *)

Lemma table_inv_fresh : forall n, table_inv (fresh_table n).
Proof.
  intros n. split; [reflexivity|]. split; [|split; reflexivity].
  intros i Hi. split.
  - intros H.
    assert (E : get (isPocketed (fresh_table n)) i = false)
      by (index_cases i).
    congruence.
  - intros _.
    assert (E : exists h, get (balls (fresh_table n)) i = Some h)
      by (do 7 (destruct i as [|i]; [eexists; reflexivity|]); lia).
    destruct E as (h & ->). discriminate.
Qed.

Lemma table_inv_frame : forall k t t',
  frame_of k t t' -> get (isPocketed t) k = false ->
  table_inv t -> table_inv t'.
Proof.
  intros k t t' (F1 & F2 & F3 & F4) Hk (I0 & I & L & P).
  split; [rewrite F1; exact I0|]. split; [|rewrite F3; split; assumption].
  intros i Hi. rewrite F1, F2. destruct (I i Hi) as (Ia & Ib).
  split; [|exact Ib].
  intros H. destruct (Nat.eq_dec i k) as [->|Hik]; [congruence|].
  rewrite (F4 i Hi Hik). exact (Ia H).
Qed.

Lemma table_inv_pocketed : forall k w,
  k <> 0 -> k < 7 -> table_inv (table w) -> table_inv (table (pocketed k w)).
Proof.
  intros k w Hk0 Hk (I0 & I & L & P).
  unfold pocketed, table_inv, pos, set_isPocketed, set_speed, set_pos,
    set_ball, with_table, call.
  cbn [table ballsCurrentPositions isPocketed balls pockets].
  split; [rewrite get_set_other by (auto; lia); exact I0|].
  split; [|split; assumption].
  intros i Hi. destruct (Nat.eq_dec i k) as [->|Hik].
  - rewrite !get_set_same by exact Hk. split; [auto | discriminate].
  - rewrite !get_set_other by (auto; lia). exact (I i Hi).
Qed.

Lemma moveBall_reset : forall dt w,
  isInPocket 0 (table w) = true -> moveBall 0 dt w = init (deinit w).
Proof. intros dt w H; unfold moveBall; rewrite H; reflexivity. Qed.

Lemma stepBall_unpocketed : forall dt k w,
  get (isPocketed (table w)) k = false -> stepBall dt k w = moveBall k dt w.
Proof. intros dt k w H; unfold stepBall; rewrite H; reflexivity. Qed.

Lemma stepBall_pocketed : forall dt k w,
  get (isPocketed (table w)) k = true -> stepBall dt k w = Some w.
Proof. intros dt k w H; unfold stepBall; rewrite H; reflexivity. Qed.

Lemma stepBall_table_inv : forall dt k w w',
  k < 7 -> stepBall dt k w = Some w' ->
  table_inv (table w) -> table_inv (table w').
Proof.
  intros dt k w w' Hk H Hinv.
  destruct (get (isPocketed (table w)) k) eqn:Fk.
  - rewrite (stepBall_pocketed dt k w Fk) in H. injection H as <-. exact Hinv.
  - rewrite (stepBall_unpocketed dt k w Fk) in H.
    destruct (isInPocket k (table w)) eqn:Pk.
    + destruct (Nat.eq_dec k 0) as [->|Hk0].
      * rewrite (moveBall_reset dt w Pk) in H.
        destruct (reset_table w) as (wr & E & T & _).
        rewrite E in H. injection H as <-. rewrite T. apply table_inv_fresh.
      * rewrite (moveBall_pocket k dt w Hk0 Pk) in H. injection H as <-.
        apply table_inv_pocketed; assumption.
    + unfold moveBall in H. rewrite Pk in H. injection H as <-.
      apply table_inv_frame with (k := k) (t := table w); auto.
      cbn [table with_table call].
      eapply frame_of_trans; [|apply frame_set_speed].
      eapply frame_of_trans; [|apply frame_set_pos].
      eapply frame_of_trans;
        [apply checkBorders_frame | apply checkBallCollision_frame].
Qed.

Lemma frame_table_inv : forall dt idx w w',
  (forall k, In k idx -> k < 7) ->
  forM idx (stepBall dt) w = Some w' ->
  table_inv (table w) -> table_inv (table w').
Proof.
  intros dt idx; induction idx as [|k rest IH]; intros w w' Hidx H Hinv.
  - injection H as <-. exact Hinv.
  - rewrite forM_cons in H. apply bind_some in H.
    destruct H as (w1 & E & H).
    apply (IH w1 w'); auto.
    + intros j Hj; apply Hidx; right; exact Hj.
    + apply (stepBall_table_inv dt k w w1); auto.
      apply Hidx; left; reflexivity.
Qed.

Lemma update_table_inv : forall dt w w',
  update dt w = Some w' -> table_inv (table w) -> table_inv (table w').
Proof.
  intros dt w w' H Hinv. rewrite update_unfold in H.
  destruct (begin_frame_table dt w) as (Bt & _).
  destruct (isBallsMoving w).
  - apply bind_some in H. destruct H as (w1 & E & H).
    injection H as <-.
    assert (T : table_inv (table w1)).
    { apply (frame_table_inv dt (seq 0 7) (begin_frame dt w) w1); auto.
      - intros k Hk; apply in_seq in Hk; lia.
      - rewrite Bt; exact Hinv. }
    destruct (negb _); exact T.
  - injection H as <-. rewrite Bt; exact Hinv.
Qed.

(** X8: in every reachable state the cue ball is not flagged pocketed,
    every flagged ball is parked on the sentinel (30, 30) with a null
    handle, every unflagged ball has a live handle, and the six pocket
    handles are live. *)
Theorem reachable_table_bookkeeping : forall w,
  Reachable w -> table_inv (table w).
Proof.
  induction 1 as [w H | dt w w' _ IH H | x y w _ IH | x y w _ IH].
  - rewrite init_start in H. injection H as <-.
    exact (table_inv_fresh 0).
  - exact (update_table_inv dt w w' H IH).
  - unfold mouseButtonPressed. destruct (negb _); exact IH.
  - unfold mouseButtonReleased. destruct (negb _); [|exact IH].
    apply table_inv_frame with (k := 0) (t := table w);
      [|exact (proj1 IH) | exact IH].
    cbn [table with_table set_isBallsMoving set_isChargingShot
         set_shotChargeProgress].
    eapply frame_of_trans; [|apply frame_set_speed].
    eapply frame_of_trans; apply frame_set_dir.
Qed.

Lemma reachable_table_bookkeeping_witness :
  Reachable half_charged /\ get (isPocketed (table half_charged)) 0 = false.
Proof.
  split; [exact reachable_half_charged|].
  exact (proj1 (reachable_table_bookkeeping half_charged reachable_half_charged)).
Defined.

(* ================================================================== *)
(** * Handles given to the presentation layer *)
(* ================================================================== *)

Lemma existsb_app_false : forall A (f : A -> bool) l1 l2,
  existsb f l1 = false -> existsb f l2 = false -> existsb f (l1 ++ l2) = false.
Proof. intros A f l1 l2 H1 H2. rewrite existsb_app, H1, H2. reflexivity. Qed.

Lemma existsb_rev_false : forall A (f : A -> bool) l,
  existsb f l = false -> existsb f (rev l) = false.
Proof.
  intros A f l H. apply not_true_is_false. intros E.
  apply existsb_exists in E. destruct E as (x & Hx & Fx).
  apply in_rev in Hx.
  assert (existsb f l = true) by (apply existsb_exists; eauto). congruence.
Qed.

Lemma destroy_live_clean : forall l,
  forallb (fun m => negb (is_null m)) l = true ->
  existsb null_call (map destroyMesh l) = false.
Proof.
  induction l as [|m l IH]; simpl; intros H; [reflexivity|].
  apply andb_prop in H; destruct H as (Hm & Hl).
  rewrite (IH Hl). destruct m; [reflexivity | discriminate Hm].
Qed.

Lemma filter_live : forall l : list Mesh,
  forallb (fun m => negb (is_null m)) (filter (fun m => negb (is_null m)) l)
  = true.
Proof.
  induction l as [|m l IH]; simpl; [reflexivity|].
  destruct m; simpl; auto.
Qed.

Lemma init_calls_clean : forall n, existsb null_call (init_calls n) = false.
Proof. intros n; reflexivity. Qed.

Lemma handles_free_default : handles_free Table_default = true.
Proof. reflexivity. Qed.

Lemma reset_log : forall w,
  exists wr,
    init (deinit w) = Some wr /\
    calls wr = rev (init_calls (nextMesh w)) ++
               rev (deinit_calls (table w)) ++ calls w.
Proof.
  intros w. destruct (deinit_log w) as (C & _ & N).
  assert (Hlen : length (pockets (table (deinit w))) = 6) by reflexivity.
  assert (Hfree : handles_free (table (deinit w)) = true) by reflexivity.
  rewrite (init_on_free_handles (deinit w) Hlen Hfree).
  eexists; split; [reflexivity|]. cbn [calls]. rewrite N, C. reflexivity.
Qed.

Lemma live_not_null : forall m : Mesh, m <> None -> null_call (destroyMesh m) = false.
Proof. intros [h|] H; [reflexivity | congruence]. Qed.

Lemma live_place : forall (m : Mesh) x y z,
  m <> None -> null_call (placeMesh m x y z) = false.
Proof. intros [h|] x y z H; [reflexivity | congruence]. Qed.

Lemma stepBall_log_clean : forall dt k w w',
  k < 7 -> stepBall dt k w = Some w' ->
  table_inv (table w) ->
  existsb null_call (calls w) = false ->
  existsb null_call (calls w') = false.
Proof.
  intros dt k w w' Hk H Hinv Hlog.
  destruct (get (isPocketed (table w)) k) eqn:Fk.
  - rewrite (stepBall_pocketed dt k w Fk) in H. injection H as <-. exact Hlog.
  - rewrite (stepBall_unpocketed dt k w Fk) in H.
    destruct Hinv as (_ & I & L & P).
    pose proof (proj2 (I k Hk) Fk) as Hlive.
    destruct (isInPocket k (table w)) eqn:Pk.
    + destruct (Nat.eq_dec k 0) as [->|Hk0].
      * rewrite (moveBall_reset dt w Pk) in H.
        destruct (reset_log w) as (wr & E & C).
        rewrite E in H. injection H as <-. rewrite C.
        apply existsb_app_false;
          [apply existsb_rev_false, init_calls_clean|].
        apply existsb_app_false; [|exact Hlog].
        apply existsb_rev_false. unfold deinit_calls.
        apply existsb_app_false; apply destroy_live_clean;
          [exact P | apply filter_live].
      * rewrite (moveBall_pocket k dt w Hk0 Pk) in H. injection H as <-.
        unfold pocketed. cbn [calls with_table call existsb].
        rewrite (live_not_null _ Hlive). exact Hlog.
    + unfold moveBall in H. rewrite Pk in H. injection H as <-.
      cbn [calls with_table call existsb].
      rewrite (live_place _ _ _ _ Hlive). exact Hlog.
Qed.

Lemma frame_log_clean : forall dt idx w w',
  (forall k, In k idx -> k < 7) ->
  forM idx (stepBall dt) w = Some w' ->
  table_inv (table w) ->
  existsb null_call (calls w) = false ->
  existsb null_call (calls w') = false.
Proof.
  intros dt idx; induction idx as [|k rest IH]; intros w w' Hidx H Hinv Hlog.
  - injection H as <-. exact Hlog.
  - rewrite forM_cons in H. apply bind_some in H.
    destruct H as (w1 & E & H).
    assert (Hk : k < 7) by (apply Hidx; left; reflexivity).
    apply (IH w1 w'); auto.
    + intros j Hj; apply Hidx; right; exact Hj.
    + exact (stepBall_table_inv dt k w w1 Hk E Hinv).
    + exact (stepBall_log_clean dt k w w1 Hk E Hinv Hlog).
Qed.

Lemma update_log_clean : forall dt w w',
  update dt w = Some w' ->
  table_inv (table w) ->
  existsb null_call (calls w) = false ->
  existsb null_call (calls w') = false.
Proof.
  intros dt w w' H Hinv Hlog. rewrite update_unfold in H.
  destruct (begin_frame_table dt w) as (Bt & _).
  assert (Hb : existsb null_call (calls (begin_frame dt w)) = false).
  { unfold begin_frame. destruct (isChargingShot w); exact Hlog. }
  destruct (isBallsMoving w).
  - apply bind_some in H. destruct H as (w1 & E & H). injection H as <-.
    assert (C : existsb null_call (calls w1) = false).
    { apply (frame_log_clean dt (seq 0 7) (begin_frame dt w) w1); auto.
      - intros k Hk; apply in_seq in Hk; lia.
      - rewrite Bt; exact Hinv. }
    destruct (negb _); exact C.
  - injection H as <-. exact Hb.
Qed.

Lemma reachable_clean : forall w,
  Reachable w ->
  table_inv (table w) /\ existsb null_call (calls w) = false.
Proof.
  induction 1 as [w H | dt w w' Hr IH H | x y w Hr IH | x y w Hr IH].
  - rewrite init_start in H. injection H as <-.
    split; [exact (table_inv_fresh 0) | reflexivity].
  - destruct IH as (It & Il). split.
    + exact (update_table_inv dt w w' H It).
    + exact (update_log_clean dt w w' H It Il).
  - unfold mouseButtonPressed. destruct (negb _); exact IH.
  - destruct IH as (It & Il). unfold mouseButtonReleased.
    destruct (negb _); [|split; assumption].
    split; [|exact Il].
    apply table_inv_frame with (k := 0) (t := table w);
      [|exact (proj1 It) | exact It].
    cbn [table with_table set_isBallsMoving set_isChargingShot
         set_shotChargeProgress].
    eapply frame_of_trans; [|apply frame_set_speed].
    eapply frame_of_trans; apply frame_set_dir.
Qed.

(** X9: along every run from [init()] the presentation layer is never
    handed a null mesh: no [placeMesh] and no [destroyMesh] call in the
    log of a reachable state has a null handle (a pocketed ball is never
    placed, and the reset destroys live handles only). *)
Theorem no_null_handle_presented : forall w,
  Reachable w -> existsb null_call (calls w) = false.
Proof. intros w H. exact (proj2 (reachable_clean w H)). Qed.

Lemma no_null_handle_presented_witness :
  Reachable east_shot /\ existsb null_call (calls east_shot) = false.
Proof.
  assert (R : Reachable east_shot)
    by (apply reach_released, reachable_half_charged).
  split; [exact R|]. exact (no_null_handle_presented east_shot R).
Defined.

(* ================================================================== *)
(** * Pocketed balls stay out of the simulation *)
(* ================================================================== *)

Lemma frame_keeps_flagged : forall i dt idx w w',
  i < 7 -> ~ In 0 idx ->
  get (isPocketed (table w)) i = true ->
  forM idx (stepBall dt) w = Some w' -> keeps i w w'.
Proof.
  intros i dt idx; induction idx as [|k rest IH]; intros w w' Hi H0 Hf H.
  - injection H as <-. apply keeps_refl.
  - rewrite forM_cons in H. apply bind_some in H.
    destruct H as (w1 & E & H).
    assert (K : keeps i w w1).
    { destruct (Nat.eq_dec i k) as [<-|Hik].
      - rewrite (stepBall_pocketed dt i w Hf) in E. injection E as <-.
        apply keeps_refl.
      - apply (stepBall_keeps k i dt w w1); auto.
        intros ->. exfalso. apply H0. left; reflexivity. }
    apply keeps_trans with (b := w1); [exact K|].
    apply IH; auto.
    + intros Hin; apply H0; right; exact Hin.
    + destruct K as (_ & K & _). rewrite K. exact Hf.
Qed.

(** X10: a pocketed ball stays out of the simulation until the next
    reset.  In any update that does not begin with the cue-ball reset, a
    ball flagged pocketed keeps its flag, its position and its (null)
    handle: it is not stepped, and no other ball's step moves it. *)
Theorem pocketed_until_reset : forall dt w w' i,
  i < 7 ->
  get (isPocketed (table w)) i = true ->
  get (isPocketed (table w)) 0 = true \/ isInPocket 0 (table w) = false ->
  update dt w = Some w' ->
  get (isPocketed (table w')) i = true /\
  pos (table w') i = pos (table w) i /\
  get (balls (table w')) i = get (balls (table w)) i.
Proof.
  intros dt w w' i Hi Hf Hcue H.
  assert (K : keeps i w w').
  { rewrite update_unfold in H.
    destruct (begin_frame_table dt w) as (Bt & _).
    assert (Kb : keeps i w (begin_frame dt w))
      by (unfold keeps; rewrite Bt; repeat split).
    destruct (isBallsMoving w).
    - apply bind_some in H. destruct H as (w1 & E & H). injection H as <-.
      change (seq 0 7) with (0 :: seq 1 6) in E. rewrite forM_cons in E.
      apply bind_some in E. destruct E as (w0 & E0 & E).
      assert (K0 : keeps i (begin_frame dt w) w0).
      { destruct (Nat.eq_dec i 0) as [->|Hi0].
        - rewrite stepBall_pocketed in E0 by (rewrite Bt; exact Hf).
          injection E0 as <-. apply keeps_refl.
        - apply (stepBall_keeps 0 i dt (begin_frame dt w) w0); auto.
          intros _. rewrite Bt. exact Hcue. }
      assert (K1 : keeps i w0 w1).
      { apply (frame_keeps_flagged i dt (seq 1 6) w0 w1); auto.
        - rewrite in_seq; lia.
        - destruct K0 as (_ & K0 & _). rewrite K0, Bt. exact Hf. }
      apply keeps_trans with (b := w1);
        [|destruct (negb _); repeat split].
      apply keeps_trans with (b := w0); [|exact K1].
      apply keeps_trans with (b := begin_frame dt w); assumption.
    - injection H as <-. exact Kb. }
  destruct K as (K1 & K2 & K3). rewrite K2. repeat split; assumption.
Qed.

Lemma pocketed_until_reset_witness :
  exists w1 w2,
    update dt60 one_on_pocket = Some w1 /\
    get (isPocketed (table w1)) 1 = true /\
    update dt60 w1 = Some w2 /\
    get (isPocketed (table w2)) 1 = true /\
    pos (table w2) 1 = pos (table w1) 1.
Proof.
  destruct (update_total dt60 one_on_pocket) as (w1 & E1).
  assert (F1 : get (isPocketed (table w1)) 1 = true /\
               isInPocket 0 (table w1) = false).
  { vm_compute in E1. injection E1 as <-. split; reflexivity. }
  destruct F1 as (F1 & P1).
  destruct (update_total dt60 w1) as (w2 & E2).
  exists w1, w2. split; [exact E1|]. split; [exact F1|]. split; [exact E2|].
  destruct (pocketed_until_reset dt60 w1 w2 1 ltac:(lia) F1 (or_intror P1) E2)
    as (A & B & _).
  split; assumption.
Defined.

(** X11: outside the cue-ball reset the step of ball [k] never moves
    another ball and never changes another ball's pocketed flag or
    handle; a collision only rewrites the other ball's direction and
    speed. *)
Theorem step_leaves_other_balls_in_place : forall k i dt w w',
  i < 7 -> i <> k ->
  (k = 0 -> isInPocket 0 (table w) = false) ->
  moveBall k dt w = Some w' ->
  pos (table w') i = pos (table w) i /\
  get (isPocketed (table w')) i = get (isPocketed (table w)) i /\
  get (balls (table w')) i = get (balls (table w)) i.
Proof. intros k i dt w w' Hi Hk Hr H. exact (moveBall_keeps k i dt w w' Hi Hk Hr H). Qed.

Lemma step_leaves_other_balls_in_place_witness :
  exists w',
    moveBall 0 dt60 head_on = Some w' /\
    pos (table w') 1 = pos (table head_on) 1 /\
    dir (table w') 1 <> dir (table head_on) 1.
Proof.
  destruct (moveBall_total 0 dt60 head_on) as (w' & E).
  exists w'. split; [exact E|].
  split.
  - exact (proj1 (step_leaves_other_balls_in_place 0 1 dt60 head_on w'
                    ltac:(lia) ltac:(lia) (fun _ => eq_refl) E)).
  - vm_compute in E. injection E as <-. discriminate.
Defined.

(* ================================================================== *)
(** * More on the border check *)
(* ================================================================== *)

Lemma leb_not_ltb : forall a b, F32.leb a b = true -> F32.ltb b a = false.
Proof.
  intros a b; unfold F32.ltb, F32.leb, SFltb, SFleb.
  rewrite (compare_antisym a b).
  destruct (SFcompare a b) as [[| |]|]; simpl; congruence.
Qed.

Lemma clamp_clear : forall lo hi v,
  is_nan lo = false -> is_nan hi = false ->
  F32.leb lo lo = true -> F32.leb hi hi = true -> F32.leb lo hi = true ->
  F32.ltb hi lo = false ->
  is_nan v = false ->
  F32.ltb (clamp lo hi v) lo = false /\ F32.ltb hi (clamp lo hi v) = false.
Proof.
  intros lo hi v Nlo Nhi Rlo Rhi Hle Hlt Nv.
  destruct (clamp_between lo hi v Nlo Nhi Rlo Rhi Hle Hlt Nv) as (A & B).
  split; apply leb_not_ltb; assumption.
Qed.

(** X12: the border check is idempotent on a ball whose coordinates are
    not NaN: a second [checkBorders] right after the first finds the
    ball inside the four edges and changes neither its position, nor its
    speed, nor its direction. *)
Theorem border_check_idempotent : forall t i,
  i < 7 ->
  is_nan (vx (pos t i)) = false ->
  is_nan (vy (pos t i)) = false ->
  checkBorders i (checkBorders i t) = checkBorders i t.
Proof.
  intros t i Hi Nx Ny. apply checkBorders_clear.
  unfold borders_clear. rewrite (checkBorders_pos t i Hi). cbn [vx vy].
  destruct (clamp_clear x_min x_max (vx (pos t i)))
    as (X1 & X2); try reflexivity; try exact Nx.
  destruct (clamp_clear y_min y_max (vy (pos t i)))
    as (Y1 & Y2); try reflexivity; try exact Ny.
  rewrite X1, X2, Y1, Y2. reflexivity.
Qed.

Lemma border_check_idempotent_witness :
  checkBorders 1 top_crossing <> top_crossing /\
  checkBorders 1 (checkBorders 1 top_crossing) = checkBorders 1 top_crossing.
Proof.
  split; [vm_compute; discriminate|].
  apply (border_check_idempotent top_crossing 1); [lia | reflexivity | reflexivity].
Defined.

(* ================================================================== *)
(** * Speeds are never negative *)
(* ================================================================== *)

Lemma has_sign_nonneg : forall x, has_sign false x -> nonneg_or_nan x = true.
Proof. intros [s|s| |s m e]; simpl; intros H; subst; auto; contradiction. Qed.

Lemma nonneg_not_negative : forall x,
  nonneg_or_nan x = true -> not_negative x = true.
Proof.
  intros [[|]|[|]| |[|] m e]; simpl; try discriminate; intros _; reflexivity.
Qed.

Lemma round_aux_nonneg : forall prec emax m e l,
  (0 <= m)%Z -> nonneg_or_nan (binary_round_aux prec emax false m e l) = true.
Proof. intros; apply has_sign_nonneg, binary_round_aux_sign; assumption. Qed.

Lemma round_nonneg : forall prec emax m e,
  nonneg_or_nan (binary_round prec emax false m e) = true.
Proof.
  intros prec emax m e; unfold binary_round.
  destruct (shl_align m e _) as [mz ez]. apply round_aux_nonneg. lia.
Qed.

Lemma normalize_nonneg : forall prec emax m e,
  (0 <= m)%Z -> nonneg_or_nan (binary_normalize prec emax m e false) = true.
Proof.
  intros prec emax [|p|p] e H; simpl; [reflexivity | apply round_nonneg | lia].
Qed.

Lemma mul_self_nonneg : forall x, nonneg_or_nan (F32.mul x x) = true.
Proof.
  intros [[|]|[|]| |s m e]; try reflexivity.
  unfold F32.mul, SFmul. replace (xorb s s) with false by (destruct s; reflexivity).
  apply round_aux_nonneg. lia.
Qed.

Lemma add_nonneg : forall a b,
  nonneg_or_nan a = true -> nonneg_or_nan b = true ->
  nonneg_or_nan (F32.add a b) = true.
Proof.
  intros [[|]|[|]| |[|] ma ea] [[|]|[|]| |[|] mb eb]; simpl;
    try discriminate; intros _ _; try reflexivity.
  apply round_nonneg.
Qed.

Lemma to_double_nonneg : forall x,
  nonneg_or_nan x = true -> nonneg_or_nan (to_double x) = true.
Proof.
  intros [[|]|[|]| |[|] m e]; simpl; try discriminate; intros _;
    try reflexivity.
  apply round_nonneg.
Qed.

Lemma to_float_nonneg : forall x,
  nonneg_or_nan x = true -> nonneg_or_nan (to_float x) = true.
Proof.
  intros [[|]|[|]| |[|] m e]; simpl; try discriminate; intros _;
    try reflexivity.
  apply round_nonneg.
Qed.

Lemma sqrtrem_nonneg : forall n, (0 <= fst (Z.sqrtrem n))%Z.
Proof.
  intros n. rewrite Z.sqrtrem_sqrt. apply Z.sqrt_nonneg.
Qed.

Lemma sqrt_nonneg : forall x,
  nonneg_or_nan x = true -> nonneg_or_nan (F64.sqrt x) = true.
Proof.
  intros [[|]|[|]| |[|] m e]; simpl; try discriminate; intros _;
    try reflexivity.
  unfold F64.sqrt, SFsqrt, SFsqrt_core_binary.
  match goal with
  | |- context [Z.sqrtrem ?n] =>
      pose proof (sqrtrem_nonneg n) as H; destruct (Z.sqrtrem n) as [q r]
  end.
  simpl in H. apply round_aux_nonneg. exact H.
Qed.

Lemma length_nonneg : forall v, nonneg_or_nan (Vector2_length v) = true.
Proof.
  intros v; unfold Vector2_length, pow_half.
  apply to_float_nonneg, sqrt_nonneg, to_double_nonneg, add_nonneg;
    apply mul_self_nonneg.
Qed.

Lemma scaled_length_not_negative : forall v,
  not_negative (F32.mul f0_95 (Vector2_length v)) = true.
Proof.
  intros v. apply nonneg_not_negative.
  pose proof (length_nonneg v) as H.
  destruct (Vector2_length v) as [[|]|[|]| |[|] m e]; simpl in H;
    try discriminate H; try reflexivity.
  apply round_aux_nonneg. lia.
Qed.

Lemma friction_not_negative : forall dt v, not_negative (friction dt v) = true.
Proof.
  intros dt v; unfold not_negative, friction, std_max.
  set (a := F32.sub v (F32.mul (F32.mul f0_05 Params.Table.width) dt)).
  destruct (F32.ltb a f0) eqn:E; [reflexivity | rewrite E; reflexivity].
Qed.

Lemma speed_set_speed_same : forall t j v,
  j < 7 -> speed (set_speed t j v) j = v.
Proof. intros t j v Hj; unfold speed, set_speed; simpl. apply get_set_same, Hj. Qed.

Lemma speed_set_speed_other : forall t j k v,
  j <> k -> k < 7 -> speed (set_speed t j v) k = speed t k.
Proof.
  intros t j k v Hjk Hk; unfold speed, set_speed; simpl.
  apply get_set_other; assumption.
Qed.

Lemma speed_set_pos : forall t j p k, speed (set_pos t j p) k = speed t k.
Proof. reflexivity. Qed.

Lemma speed_set_dir : forall t j d k, speed (set_dir t j d) k = speed t k.
Proof. reflexivity. Qed.

Lemma collide_speed : forall i j t k,
  i < 7 -> j < 7 -> k < 7 ->
  not_negative (speed t k) = true ->
  not_negative (speed (collide i j t) k) = true.
Proof.
  intros i j t k Hi Hj Hk H; unfold collide.
  destruct (Nat.eqb j i); [exact H|].
  match goal with
  | |- context [if ?c then _ else _] => destruct c
  end; [|exact H].
  cbv zeta.
  destruct (Nat.eq_dec j k) as [->|Hjk].
  - rewrite speed_set_speed_same by exact Hk.
    apply scaled_length_not_negative.
  - rewrite speed_set_speed_other by assumption.
    rewrite speed_set_dir.
    destruct (Nat.eq_dec i k) as [->|Hik].
    + rewrite speed_set_speed_same by exact Hk.
      apply scaled_length_not_negative.
    + rewrite speed_set_speed_other by assumption. exact H.
Qed.

Lemma checkBallCollision_speed : forall i t k,
  i < 7 -> k < 7 ->
  not_negative (speed t k) = true ->
  not_negative (speed (checkBallCollision i t) k) = true.
Proof.
  intros i t k Hi Hk; unfold checkBallCollision, for_each.
  assert (Hall : forall j, In j (seq 0 7) -> j < 7)
    by (intros j Hj; apply in_seq in Hj; lia).
  revert t Hall. generalize (seq 0 7); intros l.
  induction l as [|j l IH]; intros t Hall H; simpl; [exact H|].
  apply IH.
  - intros j' Hj'; apply Hall; right; exact Hj'.
  - apply collide_speed; auto. apply Hall; left; reflexivity.
Qed.

Lemma checkBorders_speed_other : forall k t i,
  i < 7 -> i <> k -> speed (checkBorders k t) i = speed t i.
Proof.
  intros k t i Hi Hik.
  destruct (checkBorders_shape k t) as (p & d & s & ->).
  rewrite speed_set_speed_other by auto. reflexivity.
Qed.

Lemma moveBall_simulated : forall k dt w w',
  k < 7 ->
  isInPocket k (table w) = false ->
  moveBall k dt w = Some w' ->
  let t2 := checkBallCollision k (checkBorders k (table w)) in
  frame_of k (table w) (table w') /\
  speed (table w') k = friction dt (speed t2 k) /\
  forall i, i < 7 -> i <> k -> speed (table w') i = speed t2 i.
Proof.
  intros k dt w w' Hk Pk H t2.
  unfold moveBall in H. rewrite Pk in H. injection H as <-.
  cbn [table with_table call]. fold t2.
  split; [|split].
  - eapply frame_of_trans; [|apply frame_set_speed].
    eapply frame_of_trans; [|apply frame_set_pos].
    eapply frame_of_trans;
      [apply checkBorders_frame | apply checkBallCollision_frame].
  - rewrite speed_set_speed_same by exact Hk. reflexivity.
  - intros i Hi Hik. rewrite speed_set_speed_other by auto.
    apply speed_set_pos.
Qed.

Lemma stepBall_speeds : forall dt k w w' (D : nat -> Prop),
  k < 7 -> stepBall dt k w = Some w' ->
  speeds_not_negative D (table w) ->
  speeds_not_negative (fun i => i = k \/ D i) (table w').
Proof.
  intros dt k w w' D Hk H Hinv.
  destruct (get (isPocketed (table w)) k) eqn:Fk.
  - rewrite (stepBall_pocketed dt k w Fk) in H. injection H as <-.
    intros i Hi [->|Hd] Hf; [congruence | exact (Hinv i Hi Hd Hf)].
  - rewrite (stepBall_unpocketed dt k w Fk) in H.
    destruct (isInPocket k (table w)) eqn:Pk.
    + destruct (Nat.eq_dec k 0) as [->|Hk0].
      * rewrite (moveBall_reset dt w Pk) in H.
        destruct (reset_table w) as (wr & E & T & _).
        rewrite E in H. injection H as <-. rewrite T.
        intros i Hi _ _. index_cases i.
      * rewrite (moveBall_pocket k dt w Hk0 Pk) in H. injection H as <-.
        intros i Hi Hd Hf. revert Hf.
        unfold pocketed, speed, set_isPocketed, set_speed, set_pos, set_ball,
          with_table, call.
        cbn [table speedModulus isPocketed].
        destruct (Nat.eq_dec i k) as [->|Hik].
        -- rewrite get_set_same by exact Hk. discriminate.
        -- rewrite !get_set_other by auto. intros Hf.
           destruct Hd as [->|Hd]; [congruence|]. exact (Hinv i Hi Hd Hf).
    + destruct (moveBall_simulated k dt w w' Hk Pk H) as ((F1 & _) & Sk & So).
      intros i Hi Hd Hf.
      destruct (Nat.eq_dec i k) as [->|Hik].
      * rewrite Sk. apply friction_not_negative.
      * rewrite (So i Hi Hik).
        apply checkBallCollision_speed; auto.
        rewrite checkBorders_speed_other by auto.
        destruct Hd as [->|Hd]; [congruence|].
        apply (Hinv i Hi Hd). rewrite <- F1. exact Hf.
Qed.

Lemma frame_speeds : forall dt idx w w' (D : nat -> Prop),
  (forall k, In k idx -> k < 7) ->
  forM idx (stepBall dt) w = Some w' ->
  speeds_not_negative D (table w) ->
  speeds_not_negative (fun i => In i idx \/ D i) (table w').
Proof.
  intros dt idx; induction idx as [|k rest IH]; intros w w' D Hidx H Hinv.
  - injection H as <-. intros i Hi [[]|Hd] Hf. exact (Hinv i Hi Hd Hf).
  - rewrite forM_cons in H. apply bind_some in H.
    destruct H as (w1 & E & H).
    assert (Hk : k < 7) by (apply Hidx; left; reflexivity).
    pose proof (stepBall_speeds dt k w w1 D Hk E Hinv) as H1.
    assert (Hrest : forall j, In j rest -> j < 7)
      by (intros j Hj; apply Hidx; right; exact Hj).
    pose proof (IH w1 w' _ Hrest H H1) as H2.
    intros i Hi Hd Hf. apply (H2 i Hi); [|exact Hf].
    destruct Hd as [[<-|Hin]|Hd]; auto.
Qed.

(** X13: after every update in balls-moving mode no unpocketed ball has
    a negative speed, from any state: each speed it leaves is a result
    of [max(., 0)], of [0.95f * length()] or the zero of a reset, so it
    is zero, positive or NaN. *)
Theorem speeds_never_negative : forall dt w w',
  isBallsMoving w = true ->
  update dt w = Some w' ->
  forall i, i < 7 ->
    get (isPocketed (table w')) i = false ->
    F32.ltb (speed (table w') i) f0 = false.
Proof.
  intros dt w w' Hm H i Hi Hf.
  rewrite update_unfold, Hm in H. apply bind_some in H.
  destruct H as (w1 & E & H). injection H as <-.
  assert (I : speeds_not_negative (fun i => In i (seq 0 7) \/ False) (table w1)).
  { apply (frame_speeds dt (seq 0 7) (begin_frame dt w) w1 (fun _ => False)).
    - intros k Hk; apply in_seq in Hk; lia.
    - exact E.
    - intros j _ []. }
  assert (T : forall b : bool,
             table (if b then set_isBallsMoving w1 false else w1) = table w1)
    by (intros [|]; reflexivity).
  rewrite T in Hf |- *.
  apply negb_true_iff. apply (I i Hi); [|exact Hf].
  left. apply in_seq. lia.
Qed.

Lemma speeds_never_negative_witness :
  isBallsMoving head_on = true /\
  exists w', update dt60 head_on = Some w' /\
             F32.ltb (speed (table w') 1) f0 = false.
Proof.
  split; [reflexivity|].
  destruct (update_total dt60 head_on) as (w' & E).
  exists w'. split; [exact E|].
  apply (speeds_never_negative dt60 head_on w' eq_refl E 1); [lia|].
  vm_compute in E. injection E as <-. reflexivity.
Defined.

(* ================================================================== *)
(** * NaN positions *)
(* ================================================================== *)

Lemma sub_nan_r : forall a, F32.sub a S754_nan = S754_nan.
Proof. intros [s|s| |s m e]; reflexivity. Qed.

Lemma add_nan_l : forall a, F32.add S754_nan a = S754_nan.
Proof. reflexivity. Qed.

Lemma add_nan_r : forall a, F32.add a S754_nan = S754_nan.
Proof. intros [s|s| |s m e]; reflexivity. Qed.

Lemma mul_nan_l : forall a, F32.mul S754_nan a = S754_nan.
Proof. reflexivity. Qed.

Lemma is_nan_eq : forall x, is_nan x = true -> x = S754_nan.
Proof. intros [s|s| |s m e]; simpl; congruence. Qed.

Lemma length_nan : forall v, has_nan v = true -> Vector2_length v = S754_nan.
Proof.
  intros [x y]; unfold has_nan, Vector2_length; cbn [vx vy]; intros H.
  apply orb_prop in H. destruct H as [H|H]; apply is_nan_eq in H; subst.
  - rewrite mul_nan_l, add_nan_l. reflexivity.
  - rewrite mul_nan_l, add_nan_r. reflexivity.
Qed.

Lemma difference_nan : forall p q,
  has_nan p = true \/ has_nan q = true ->
  has_nan (mkVector2 (F32.sub (vx q) (vx p)) (F32.sub (vy q) (vy p))) = true.
Proof.
  intros [px py] [qx qy]; unfold has_nan; cbn [vx vy]; intros [H|H];
    apply orb_prop in H; destruct H as [H|H]; apply is_nan_eq in H; subst;
    rewrite ?sub_nan_r; cbn [is_nan]; rewrite ?orb_true_r; reflexivity.
Qed.

Lemma overlaps_nan : forall i j t,
  has_nan (pos t i) = true \/ has_nan (pos t j) = true ->
  overlaps i j t = false.
Proof.
  intros i j t H; unfold overlaps, center_distance.
  rewrite (length_nan _ (difference_nan (pos t i) (pos t j) H)). reflexivity.
Qed.

Lemma existsb_none : forall A (f : A -> bool) l,
  (forall a, f a = false) -> existsb f l = false.
Proof.
  intros A f l H; induction l as [|a l IH]; simpl; [reflexivity|].
  rewrite H, IH. reflexivity.
Qed.

Lemma isInPocket_nan : forall i t,
  has_nan (pos t i) = true -> isInPocket i t = false.
Proof.
  intros i t H; unfold isInPocket. apply existsb_none. intros p.
  rewrite (length_nan _ (difference_nan (pos t i) p (or_introl H))).
  reflexivity.
Qed.

Lemma apart_nan : forall i t, has_nan (pos t i) = true -> apart i t = true.
Proof.
  intros i t H; unfold apart. apply forallb_forall. intros j _.
  rewrite (overlaps_nan i j t (or_introl H)). apply orb_true_r.
Qed.

Lemma clamp_nan : forall lo hi v, is_nan v = true -> is_nan (clamp lo hi v) = true.
Proof.
  intros lo hi v H. apply is_nan_eq in H; subst v. unfold clamp.
  replace (F32.ltb S754_nan lo) with false by reflexivity.
  replace (F32.ltb hi S754_nan) with false by (destruct hi; reflexivity).
  reflexivity.
Qed.

Lemma checkBorders_nan : forall i t,
  i < 7 -> has_nan (pos t i) = true ->
  has_nan (pos (checkBorders i t) i) = true.
Proof.
  intros i t Hi H. rewrite (checkBorders_pos t i Hi).
  unfold has_nan in *; cbn [vx vy].
  apply orb_prop in H. destruct H as [H|H].
  - rewrite (clamp_nan _ _ _ H). reflexivity.
  - rewrite (clamp_nan _ _ _ H). apply orb_true_r.
Qed.

Lemma checkBorders_other : forall k t j,
  j < 7 -> j <> k ->
  dir (checkBorders k t) j = dir t j /\ speed (checkBorders k t) j = speed t j.
Proof.
  intros k t j Hj Hjk.
  destruct (checkBorders_shape k t) as (p & d & s & ->).
  split.
  - unfold dir, set_speed, set_dir, set_pos; simpl.
    apply get_set_other; auto.
  - rewrite speed_set_speed_other by auto. reflexivity.
Qed.

(** X14: a ball with a NaN coordinate is a ghost.  It is in no pocket
    and overlaps no ball, in either role; its step is never the
    pocketing branch, changes no other ball's position, direction or
    speed, and leaves a NaN coordinate behind: the position never
    recovers. *)
Theorem nan_ball_is_ghost : forall i dt w,
  i < 7 ->
  has_nan (pos (table w) i) = true ->
  isInPocket i (table w) = false /\
  (forall j, overlaps i j (table w) = false /\ overlaps j i (table w) = false) /\
  exists w',
    moveBall i dt w = Some w' /\
    has_nan (pos (table w') i) = true /\
    get (isPocketed (table w')) i = get (isPocketed (table w)) i /\
    forall j, j < 7 -> j <> i ->
      pos (table w') j = pos (table w) j /\
      dir (table w') j = dir (table w) j /\
      speed (table w') j = speed (table w) j.
Proof.
  intros i dt w Hi H.
  pose proof (isInPocket_nan i (table w) H) as Pk.
  split; [exact Pk|]. split.
  { intros j; split; apply overlaps_nan; auto. }
  pose proof (checkBorders_nan i (table w) Hi H) as Hb.
  pose proof (checkBallCollision_apart i _ (apart_nan i _ Hb)) as Hc.
  unfold moveBall. rewrite Pk, Hc.
  eexists. split; [reflexivity|].
  cbn [table with_table call].
  split; [|split].
  - unfold pos, set_speed, set_pos; cbn [ballsCurrentPositions].
    rewrite get_set_same by exact Hi.
    unfold has_nan in Hb |- *; cbn [vx vy].
    apply orb_prop in Hb. destruct Hb as [Hb|Hb];
      apply is_nan_eq in Hb; unfold pos in Hb; rewrite Hb;
      rewrite add_nan_l; cbn [is_nan]; rewrite ?orb_true_r; reflexivity.
  - destruct (checkBorders_frame i (table w)) as (F1 & _).
    cbn [isPocketed set_speed set_pos]. rewrite F1. reflexivity.
  - intros j Hj Hji.
    destruct (checkBorders_frame i (table w)) as (_ & _ & _ & F4).
    destruct (checkBorders_other i (table w) j Hj Hji) as (D & S).
    split; [|split].
    + unfold pos, set_speed, set_pos; cbn [ballsCurrentPositions].
      rewrite get_set_other by auto. apply (F4 j Hj Hji).
    + exact D.
    + rewrite speed_set_speed_other by auto. rewrite speed_set_pos. exact S.
Qed.

Lemma nan_ball_is_ghost_witness :
  exists w1,
    update dt60 resting_overlap = Some w1 /\
    has_nan (pos (table w1) 0) = true /\
    isInPocket 0 (table w1) = false.
Proof.
  destruct (update_total dt60 resting_overlap) as (w1 & E).
  exists w1. split; [exact E|].
  assert (H : has_nan (pos (table w1) 0) = true)
    by (vm_compute in E; injection E as <-; reflexivity).
  split; [exact H|].
  exact (proj1 (nan_ball_is_ghost 0 dt60 w1 ltac:(lia) H)).
Defined.

(* ================================================================== *)
(** * Division by a zero length *)
(* ================================================================== *)

Lemma mul_zn_l : forall a b, zero_or_nan a = true -> zero_or_nan (F32.mul a b) = true.
Proof.
  intros [sa|sa| |sa ma ea] [sb|sb| |sb mb eb]; simpl; try discriminate;
    reflexivity.
Qed.

Lemma mul_zn_r : forall a b, zero_or_nan b = true -> zero_or_nan (F32.mul a b) = true.
Proof.
  intros [sa|sa| |sa ma ea] [sb|sb| |sb mb eb]; simpl; try discriminate;
    reflexivity.
Qed.

Lemma add_zn : forall a b,
  zero_or_nan a = true -> zero_or_nan b = true -> zero_or_nan (F32.add a b) = true.
Proof.
  intros [[|]|sa| |sa ma ea] [[|]|sb| |sb mb eb]; simpl; try discriminate;
    reflexivity.
Qed.

Lemma sub_zn : forall a b,
  zero_or_nan a = true -> zero_or_nan b = true -> zero_or_nan (F32.sub a b) = true.
Proof.
  intros [[|]|sa| |sa ma ea] [[|]|sb| |sb mb eb]; simpl; try discriminate;
    reflexivity.
Qed.

Lemma mul64_zn_r : forall a b, zero_or_nan b = true -> zero_or_nan (F64.mul a b) = true.
Proof.
  intros [sa|sa| |sa ma ea] [sb|sb| |sb mb eb]; simpl; try discriminate;
    reflexivity.
Qed.

Lemma add64_zn : forall a b,
  zero_or_nan a = true -> zero_or_nan b = true -> zero_or_nan (F64.add a b) = true.
Proof.
  intros [[|]|sa| |sa ma ea] [[|]|sb| |sb mb eb]; simpl; try discriminate;
    reflexivity.
Qed.

Lemma to_double_zn : forall a, zero_or_nan a = true -> zero_or_nan (to_double a) = true.
Proof. intros [s|s| |s m e]; simpl; try discriminate; reflexivity. Qed.

Lemma to_float_zn : forall a, zero_or_nan a = true -> zero_or_nan (to_float a) = true.
Proof. intros [s|s| |s m e]; simpl; try discriminate; reflexivity. Qed.

Lemma sqrt_zn : forall a, zero_or_nan a = true -> zero_or_nan (F64.sqrt a) = true.
Proof. intros [s|s| |s m e]; simpl; try discriminate; reflexivity. Qed.

Lemma div_zn : forall a b,
  zero_or_nan a = true -> zero_or_nan b = true -> F32.div a b = S754_nan.
Proof.
  intros [sa|sa| |sa ma ea] [sb|sb| |sb mb eb]; simpl; try discriminate;
    reflexivity.
Qed.

Ltac zn :=
  solve [ assumption
        | apply add_zn; zn | apply sub_zn; zn
        | apply mul_zn_r; zn | apply mul_zn_l; zn
        | apply to_float_zn; zn | apply add64_zn; zn
        | apply mul64_zn_r; zn | apply to_double_zn; zn
        | apply sqrt_zn; zn ].

Lemma length_zn : forall v,
  zero_or_nan (vx v) = true -> zero_or_nan (vy v) = true ->
  zero_or_nan (Vector2_length v) = true.
Proof. intros v Hx Hy; unfold Vector2_length, pow_half. zn. Qed.

Lemma normalize_zn : forall v,
  zero_or_nan (vx v) = true -> zero_or_nan (vy v) = true ->
  Vector2_normalize v = nan_vector.
Proof.
  intros v Hx Hy; unfold Vector2_normalize, nan_vector.
  pose proof (length_zn v Hx Hy) as Hl.
  rewrite (div_zn _ _ Hx Hl), (div_zn _ _ Hy Hl). reflexivity.
Qed.

Lemma dir_set_speed : forall t j v k, dir (set_speed t j v) k = dir t k.
Proof. reflexivity. Qed.

Lemma dir_set_pos : forall t j p k, dir (set_pos t j p) k = dir t k.
Proof. reflexivity. Qed.

Lemma dir_set_dir_same : forall t j d, j < 7 -> dir (set_dir t j d) j = d.
Proof. intros t j d Hj; unfold dir, set_dir; simpl. apply get_set_same, Hj. Qed.

Lemma dir_set_dir_other : forall t j k d,
  j <> k -> k < 7 -> dir (set_dir t j d) k = dir t k.
Proof.
  intros t j k d Hjk Hk; unfold dir, set_dir; simpl.
  apply get_set_other; assumption.
Qed.

(** X15: a collision between two balls that both have zero speed always
    destroys both directions: whenever [checkBallCollision] finds balls
    [i] and [j] overlapping and both speeds are zero (or NaN), the
    blended velocities have zero length and [normalize] leaves
    (NaN, NaN) in both direction vectors. *)
Theorem resting_collision_gives_nan : forall t i j,
  i < 7 -> j < 7 -> i <> j ->
  overlaps i j t = true ->
  zero_or_nan (speed t i) = true ->
  zero_or_nan (speed t j) = true ->
  dir (collide i j t) i = nan_vector /\
  dir (collide i j t) j = nan_vector /\
  zero_or_nan (speed (collide i j t) i) = true /\
  zero_or_nan (speed (collide i j t) j) = true.
Proof.
  intros t i j Hi Hj Hij Ho Si Sj. unfold collide.
  replace (Nat.eqb j i) with false
    by (symmetry; apply Nat.eqb_neq; auto).
  unfold overlaps, center_distance in Ho. rewrite Ho. cbv zeta.
  repeat split.
  - rewrite dir_set_speed, dir_set_dir_other, dir_set_speed by auto.
    rewrite dir_set_dir_same by exact Hi.
    apply normalize_zn; cbn [vx vy]; zn.
  - rewrite dir_set_speed, dir_set_dir_same by exact Hj.
    apply normalize_zn; cbn [vx vy]; zn.
  - rewrite speed_set_speed_other, speed_set_dir by auto.
    rewrite speed_set_speed_same by exact Hi.
    apply mul_zn_r, length_zn; cbn [vx vy]; zn.
  - rewrite speed_set_speed_same by exact Hj.
    apply mul_zn_r, length_zn; cbn [vx vy]; zn.
Qed.

Lemma resting_collision_gives_nan_witness :
  overlaps 0 1 (table resting_overlap) = true /\
  dir (collide 0 1 (table resting_overlap)) 0 = nan_vector /\
  dir (collide 0 1 (table resting_overlap)) 1 = nan_vector.
Proof.
  split; [reflexivity|].
  destruct (resting_collision_gives_nan (table resting_overlap) 0 1
              ltac:(lia) ltac:(lia) ltac:(lia) eq_refl eq_refl eq_refl)
    as (A & B & _).
  split; assumption.
Defined.

(* ================================================================== *)
(** * NaN directions *)
(* ================================================================== *)

Lemma nan_mul_l : forall a b, is_nan a = true -> is_nan (F32.mul a b) = true.
Proof. intros a b H; apply is_nan_eq in H; subst; reflexivity. Qed.

Lemma nan_mul_r : forall a b, is_nan b = true -> is_nan (F32.mul a b) = true.
Proof.
  intros a b H; apply is_nan_eq in H; subst; destruct a; reflexivity.
Qed.

Lemma nan_add_l : forall a b, is_nan a = true -> is_nan (F32.add a b) = true.
Proof. intros a b H; apply is_nan_eq in H; subst; reflexivity. Qed.

Lemma nan_add_r : forall a b, is_nan b = true -> is_nan (F32.add a b) = true.
Proof.
  intros a b H; apply is_nan_eq in H; subst; destruct a; reflexivity.
Qed.

Lemma nan_sub_l : forall a b, is_nan a = true -> is_nan (F32.sub a b) = true.
Proof. intros a b H; apply is_nan_eq in H; subst; reflexivity. Qed.

Lemma nan_sub_r : forall a b, is_nan b = true -> is_nan (F32.sub a b) = true.
Proof.
  intros a b H; apply is_nan_eq in H; subst; destruct a; reflexivity.
Qed.

Lemma nan_neg : forall a, is_nan a = true -> is_nan (F32.neg a) = true.
Proof. intros a H; apply is_nan_eq in H; subst; reflexivity. Qed.

Lemma nan_div_l : forall a b, is_nan a = true -> F32.div a b = S754_nan.
Proof. intros a b H; apply is_nan_eq in H; subst; reflexivity. Qed.

Ltac nan :=
  solve [ reflexivity | assumption
        | apply nan_add_l; nan | apply nan_add_r; nan
        | apply nan_sub_l; nan | apply nan_sub_r; nan
        | apply nan_mul_l; nan | apply nan_mul_r; nan
        | apply nan_neg; nan ].

Lemma normalize_nan : forall v,
  is_nan (vx v) = true -> is_nan (vy v) = true ->
  Vector2_normalize v = nan_vector.
Proof.
  intros v Hx Hy; unfold Vector2_normalize, nan_vector.
  rewrite (nan_div_l _ _ Hx), (nan_div_l _ _ Hy). reflexivity.
Qed.

Lemma checkBorders_nan_dir : forall i t,
  i < 7 -> dir t i = nan_vector -> dir (checkBorders i t) i = nan_vector.
Proof.
  intros i t Hi H; unfold checkBorders.
  repeat match goal with
         | |- context [if ?c then _ else _] => destruct c
         end;
    cbv beta iota zeta;
    rewrite dir_set_speed, dir_set_dir_same by exact Hi;
    rewrite H; reflexivity.
Qed.

Lemma collide_nan_dir : forall i j t,
  i < 7 -> dir t i = nan_vector -> dir (collide i j t) i = nan_vector.
Proof.
  intros i j t Hi H; unfold collide.
  destruct (Nat.eqb j i) eqn:E; [exact H|].
  apply Nat.eqb_neq in E.
  match goal with
  | |- context [if ?c then _ else _] => destruct c
  end; [|exact H].
  cbv zeta.
  rewrite dir_set_speed, dir_set_dir_other, dir_set_speed by auto.
  rewrite dir_set_dir_same by exact Hi.
  rewrite H. apply normalize_nan; cbn [vx vy nan_vector]; nan.
Qed.

Lemma checkBallCollision_nan_dir : forall i t,
  i < 7 -> dir t i = nan_vector ->
  dir (checkBallCollision i t) i = nan_vector.
Proof.
  intros i t Hi; unfold checkBallCollision, for_each.
  generalize (seq 0 7); intros l; revert t.
  induction l as [|j l IH]; intros t H; simpl; [exact H|].
  apply IH, collide_nan_dir; assumption.
Qed.

(** X16: a ball whose direction is (NaN, NaN) is lost by its next step:
    unless it is in a pocket, [moveBall] leaves its position at
    (NaN, NaN) and its direction at (NaN, NaN), whatever its speed and
    the time step are. *)
Theorem nan_direction_loses_ball : forall i dt w w',
  i < 7 ->
  isInPocket i (table w) = false ->
  dir (table w) i = nan_vector ->
  moveBall i dt w = Some w' ->
  pos (table w') i = nan_vector /\ dir (table w') i = nan_vector.
Proof.
  intros i dt w w' Hi Pk Hd H.
  unfold moveBall in H. rewrite Pk in H. injection H as <-.
  cbn [table with_table call].
  pose proof (checkBallCollision_nan_dir i _ Hi
                (checkBorders_nan_dir i (table w) Hi Hd)) as D.
  set (t2 := checkBallCollision i (checkBorders i (table w))) in *.
  split.
  - unfold pos, set_speed, set_pos; cbn [ballsCurrentPositions].
    rewrite get_set_same by exact Hi.
    rewrite D; cbn [vx vy nan_vector].
    rewrite !mul_nan_l, !add_nan_r. reflexivity.
  - rewrite dir_set_speed, dir_set_pos. exact D.
Qed.

Lemma sub_self_zn : forall x, zero_or_nan (F32.sub x x) = true.
Proof.
  intros [[|]|[|]| |s m e]; try reflexivity.
  unfold F32.sub, SFsub. rewrite Z.sub_diag. reflexivity.
Qed.

(** X17: releasing the pointer exactly on the cue ball's centre gives the
    cue ball the direction (NaN, NaN): the aim vector has length zero
    and [normalize] divides by it. *)
Theorem shot_at_itself_gives_nan : forall w,
  isBallsMoving w = false ->
  dir (table (mouseButtonReleased (vx (pos (table w) 0))
                (vy (pos (table w) 0)) w)) 0 = nan_vector.
Proof.
  intros w Hm; unfold mouseButtonReleased. rewrite Hm.
  cbn [negb table with_table set_isBallsMoving set_isChargingShot
       set_shotChargeProgress].
  rewrite dir_set_speed, !dir_set_dir_same by lia.
  apply normalize_zn; cbn [vx vy]; apply sub_self_zn.
Qed.

Lemma shot_at_itself_gives_nan_witness :
  isBallsMoving (mouseButtonPressed f0 f0 initial) = false /\
  dir (table shot_at_itself) 0 = nan_vector.
Proof.
  split; [reflexivity|].
  exact (shot_at_itself_gives_nan (mouseButtonPressed f0 f0 initial) eq_refl).
Defined.

Lemma nan_direction_loses_ball_witness :
  exists w',
    moveBall 0 dt60 shot_at_itself = Some w' /\
    pos (table w') 0 = nan_vector /\ dir (table w') 0 = nan_vector.
Proof.
  destruct (moveBall_total 0 dt60 shot_at_itself) as (w' & E).
  exists w'. split; [exact E|].
  apply (nan_direction_loses_ball 0 dt60 shot_at_itself w');
    [lia | reflexivity | reflexivity | exact E].
Defined.

(* ================================================================== *)
(** * A lost cue ball *)
(* ================================================================== *)

Lemma moveBall_nan_pos : forall i dt w w',
  i < 7 -> has_nan (pos (table w) i) = true ->
  moveBall i dt w = Some w' -> has_nan (pos (table w') i) = true.
Proof.
  intros i dt w w' Hi H E.
  pose proof (isInPocket_nan i (table w) H) as Pk.
  pose proof (checkBorders_nan i (table w) Hi H) as Hb.
  pose proof (checkBallCollision_apart i _ (apart_nan i _ Hb)) as Hc.
  unfold moveBall in E. rewrite Pk, Hc in E. injection E as <-.
  cbn [table with_table call].
  unfold pos, set_speed, set_pos; cbn [ballsCurrentPositions].
  rewrite get_set_same by exact Hi.
  unfold has_nan in Hb |- *; cbn [vx vy].
  apply orb_prop in Hb. destruct Hb as [Hb|Hb];
    apply is_nan_eq in Hb; unfold pos in Hb; rewrite Hb;
    rewrite add_nan_l; cbn [is_nan]; rewrite ?orb_true_r; reflexivity.
Qed.

Lemma update_nan_cue : forall dt w w',
  has_nan (pos (table w) 0) = true ->
  update dt w = Some w' -> has_nan (pos (table w') 0) = true.
Proof.
  intros dt w w' H E. rewrite update_unfold in E.
  destruct (begin_frame_table dt w) as (Bt & _).
  destruct (isBallsMoving w).
  - change (seq 0 7) with (0 :: seq 1 6) in E. rewrite forM_cons in E.
    destruct (stepBall dt 0 (begin_frame dt w)) as [w1|] eqn:E0;
      [|discriminate E].
    rewrite bind_Some in E.
    destruct (forM (seq 1 6) (stepBall dt) w1) as [w2|] eqn:E1;
      [|discriminate E].
    rewrite bind_Some in E.
    assert (H1 : has_nan (pos (table w1) 0) = true).
    { unfold stepBall in E0.
      destruct (get (isPocketed (table (begin_frame dt w))) 0).
      - injection E0 as <-. rewrite Bt. exact H.
      - apply (moveBall_nan_pos 0 dt (begin_frame dt w) w1);
          [lia | rewrite Bt; exact H | exact E0]. }
    destruct (frame_keeps_from 0 dt (seq 1 6) w1 w2) as (K & _);
      [lia | | | exact E1 |].
    { intros I; apply in_seq in I; lia. }
    { intros I; apply in_seq in I; lia. }
    assert (T : table w' = table w2).
    { injection E as <-.
      destruct (negb (truthy (Table_speedSum (table w2)))); reflexivity. }
    rewrite T, K. exact H1.
  - injection E as <-. rewrite Bt. exact H.
Qed.

Lemma pressed_table : forall x y w, table (mouseButtonPressed x y w) = table w.
Proof.
  intros x y w; unfold mouseButtonPressed.
  destruct (negb (isBallsMoving w)); reflexivity.
Qed.

Lemma released_pos : forall x y w i,
  pos (table (mouseButtonReleased x y w)) i = pos (table w) i.
Proof.
  intros x y w i; unfold mouseButtonReleased.
  destruct (negb (isBallsMoving w)); reflexivity.
Qed.

(** X18: a cue ball with a NaN coordinate is lost for good.  Whatever
    sequence of [update], [mouseButtonPressed] and [mouseButtonReleased]
    calls follows, its position still has a NaN coordinate, it is in no
    pocket (so the reset of [moveBall] never runs again) and it overlaps
    no ball. *)
Theorem lost_cue_ball_stays_lost : forall w w',
  has_nan (pos (table w) 0) = true ->
  Play w w' ->
  has_nan (pos (table w') 0) = true /\
  isInPocket 0 (table w') = false /\
  forall j, overlaps 0 j (table w') = false /\ overlaps j 0 (table w') = false.
Proof.
  intros w w' H P.
  assert (N : has_nan (pos (table w') 0) = true).
  { induction P as [w|dt w w1 w2 P IH E|x y w w1 P IH|x y w w1 P IH].
    - exact H.
    - exact (update_nan_cue dt w1 w2 (IH H) E).
    - rewrite pressed_table. exact (IH H).
    - rewrite released_pos. exact (IH H). }
  split; [exact N|]. split; [apply isInPocket_nan; exact N|].
  intros j; split; apply overlaps_nan; auto.
Qed.

Lemma lost_cue_ball_stays_lost_witness :
  exists w1 w2,
    update dt60 shot_at_itself = Some w1 /\
    update dt60 (mouseButtonReleased f0 f0 (mouseButtonPressed f0 f0 w1))
      = Some w2 /\
    has_nan (pos (table w2) 0) = true /\
    isInPocket 0 (table w2) = false.
Proof.
  destruct (update_total dt60 shot_at_itself) as (w1 & E1).
  destruct (update_total dt60
              (mouseButtonReleased f0 f0 (mouseButtonPressed f0 f0 w1)))
    as (w2 & E2).
  exists w1, w2. split; [exact E1|]. split; [exact E2|].
  assert (H : has_nan (pos (table w1) 0) = true)
    by (vm_compute in E1; injection E1 as <-; reflexivity).
  destruct (lost_cue_ball_stays_lost w1 w2 H) as (A & B & _).
  - eapply play_update; [|exact E2].
    apply play_released, play_pressed, play_stop.
  - split; assumption.
Defined.

(* ================================================================== *)
(** * NaN speeds *)
(* ================================================================== *)

Lemma nan64_add_l : forall a b, is_nan a = true -> is_nan (F64.add a b) = true.
Proof. intros a b H; apply is_nan_eq in H; subst; reflexivity. Qed.

Lemma nan64_add_r : forall a b, is_nan b = true -> is_nan (F64.add a b) = true.
Proof.
  intros a b H; apply is_nan_eq in H; subst; destruct a; reflexivity.
Qed.

Lemma nan64_mul_r : forall a b, is_nan b = true -> is_nan (F64.mul a b) = true.
Proof.
  intros a b H; apply is_nan_eq in H; subst; destruct a; reflexivity.
Qed.

Lemma nan_to_double : forall a, is_nan a = true -> is_nan (to_double a) = true.
Proof. intros a H; apply is_nan_eq in H; subst; reflexivity. Qed.

Lemma nan_to_float : forall a, is_nan a = true -> is_nan (to_float a) = true.
Proof. intros a H; apply is_nan_eq in H; subst; reflexivity. Qed.

Ltac nan2 :=
  solve [ reflexivity | assumption
        | apply nan_add_l; nan2 | apply nan_add_r; nan2
        | apply nan_sub_l; nan2 | apply nan_sub_r; nan2
        | apply nan_mul_l; nan2 | apply nan_mul_r; nan2
        | apply nan_neg; nan2
        | apply nan_to_float; nan2 | apply nan_to_double; nan2
        | apply nan64_add_l; nan2 | apply nan64_add_r; nan2
        | apply nan64_mul_r; nan2 ].

Lemma nan_length : forall v, is_nan (vx v) = true -> is_nan (Vector2_length v) = true.
Proof.
  intros v H. rewrite length_nan; [reflexivity|].
  unfold has_nan. rewrite H. reflexivity.
Qed.

Lemma collide_nan_speed : forall k j t i,
  i < 7 -> is_nan (speed t i) = true ->
  is_nan (speed (collide k j t) i) = true.
Proof.
  intros k j t i Hi H; unfold collide.
  destruct (Nat.eqb j k) eqn:E; [exact H|].
  apply Nat.eqb_neq in E.
  match goal with
  | |- context [if ?c then _ else _] => destruct c
  end; [|exact H].
  cbv zeta.
  destruct (Nat.eq_dec i j) as [->|Hij].
  - rewrite speed_set_speed_same by exact Hi.
    apply nan_mul_r, nan_length; cbn [vx vy]. nan2.
  - rewrite speed_set_speed_other, speed_set_dir by auto.
    destruct (Nat.eq_dec i k) as [->|Hik].
    + rewrite speed_set_speed_same by exact Hi.
      apply nan_mul_r, nan_length; cbn [vx vy]. nan2.
    + rewrite speed_set_speed_other, speed_set_dir, speed_set_pos by auto.
      exact H.
Qed.

Lemma checkBallCollision_nan_speed : forall k t i,
  i < 7 -> is_nan (speed t i) = true ->
  is_nan (speed (checkBallCollision k t) i) = true.
Proof.
  intros k t i Hi; unfold checkBallCollision, for_each.
  generalize (seq 0 7); intros l; revert t.
  induction l as [|j l IH]; intros t H; simpl; [exact H|].
  apply IH, collide_nan_speed; assumption.
Qed.

Lemma checkBorders_nan_speed : forall k t i,
  i < 7 -> is_nan (speed t i) = true ->
  is_nan (speed (checkBorders k t) i) = true.
Proof.
  intros k t i Hi H.
  destruct (Nat.eq_dec i k) as [->|Hik].
  - unfold checkBorders.
    repeat match goal with
           | |- context [if ?c then _ else _] => destruct c
           end;
      cbv beta iota zeta;
      rewrite speed_set_speed_same by exact Hi; nan.
  - destruct (checkBorders_other k t i Hi Hik) as (_ & ->). exact H.
Qed.

Lemma friction_nan : forall dt v, is_nan v = true -> is_nan (friction dt v) = true.
Proof. intros dt v H; apply is_nan_eq in H; subst; reflexivity. Qed.

Lemma speedSum_nan : forall t i,
  i < 7 -> is_nan (speed t i) = true -> is_nan (Table_speedSum t) = true.
Proof.
  intros t i Hi H; unfold Table_speedSum, to_list; cbn [fold_left].
  unfold speed in H.
  do 7 (destruct i as [|i]; [cbn [get] in H; nan|]). lia.
Qed.

Lemma moveBall_nan_speed : forall i dt w w',
  i < 7 ->
  isInPocket i (table w) = false ->
  is_nan (speed (table w) i) = true ->
  moveBall i dt w = Some w' ->
  is_nan (speed (table w') i) = true /\ has_nan (pos (table w') i) = true.
Proof.
  intros i dt w w' Hi P H E.
  pose proof (checkBallCollision_nan_speed i _ i Hi
                (checkBorders_nan_speed i (table w) i Hi H)) as N.
  destruct (moveBall_simulated i dt w w' Hi P E) as (_ & S & _).
  split; [rewrite S; apply friction_nan, N|].
  unfold moveBall in E. rewrite P in E. injection E as <-.
  cbn [table with_table call].
  set (t2 := checkBallCollision i (checkBorders i (table w))) in *.
  unfold pos, set_speed, set_pos; cbn [ballsCurrentPositions].
  rewrite get_set_same by exact Hi.
  unfold has_nan; cbn [vx vy]. apply orb_true_iff; left. nan.
Qed.

(** The step of the cue ball, and of any other ball, when the cue ball's
    speed is NaN. *)
Lemma stepBall_nan_speed : forall dt k w w',
  k < 7 ->
  is_nan (speed (table w) 0) = true ->
  isInPocket 0 (table w) = false ->
  stepBall dt k w = Some w' ->
  is_nan (speed (table w') 0) = true /\
  isInPocket 0 (table w') = false.
Proof.
  intros dt k w w' Hk7 H P E.
  destruct (get (isPocketed (table w)) k) eqn:Fk.
  { rewrite (stepBall_pocketed dt k w Fk) in E. injection E as <-. auto. }
  rewrite (stepBall_unpocketed dt k w Fk) in E.
  destruct (Nat.eq_dec k 0) as [->|Hk].
  - destruct (moveBall_nan_speed 0 dt w w' ltac:(lia) P H E) as (S & N).
    split; [exact S | apply isInPocket_nan, N].
  - assert (K : keeps 0 w w').
    { apply (moveBall_keeps k 0 dt w w'); [lia | auto | congruence | exact E]. }
    destruct K as (Kp & _).
    split; [|rewrite (isInPocket_pos 0 _ _ Kp); exact P].
    destruct (isInPocket k (table w)) eqn:Pk.
    + rewrite (moveBall_pocket k dt w Hk Pk) in E. injection E as <-.
      unfold pocketed; cbn [table with_table call].
      unfold speed, set_isPocketed, set_speed; cbn [speedModulus].
      rewrite get_set_other by (auto; lia). exact H.
    + destruct (moveBall_simulated k dt w w' Hk7 Pk E) as (_ & _ & S).
      rewrite (S 0) by (lia || auto).
      apply checkBallCollision_nan_speed, checkBorders_nan_speed;
        [lia | lia | exact H].
Qed.

Lemma frame_nan_speed : forall dt idx w w',
  (forall k, In k idx -> k < 7) ->
  is_nan (speed (table w) 0) = true ->
  isInPocket 0 (table w) = false ->
  forM idx (stepBall dt) w = Some w' ->
  is_nan (speed (table w') 0) = true /\
  isInPocket 0 (table w') = false.
Proof.
  intros dt idx; induction idx as [|k rest IH]; intros w w' Hidx H P E.
  - injection E as <-. auto.
  - rewrite forM_cons in E.
    destruct (stepBall dt k w) as [w1|] eqn:E1; [|discriminate E].
    rewrite bind_Some in E.
    destruct (stepBall_nan_speed dt k w w1 (Hidx k (or_introl eq_refl)) H P E1)
      as (H1 & P1).
    apply (IH w1 w'); auto.
    intros j Hj; apply Hidx; right; exact Hj.
Qed.

Lemma update_nan_speed : forall dt w w',
  isBallsMoving w = true ->
  is_nan (speed (table w) 0) = true ->
  isInPocket 0 (table w) = false ->
  update dt w = Some w' ->
  isBallsMoving w' = true /\
  is_nan (speed (table w') 0) = true /\
  isInPocket 0 (table w') = false.
Proof.
  intros dt w w' M H P E. rewrite update_unfold, M in E.
  destruct (begin_frame_table dt w) as (Bt & _ & Bm & _).
  destruct (forM (seq 0 7) (stepBall dt) (begin_frame dt w)) as [w1|] eqn:E1;
    [|discriminate E].
  rewrite bind_Some in E.
  destruct (frame_nan_speed dt (seq 0 7) (begin_frame dt w) w1) as (H1 & P1);
    [intros k Hk; apply in_seq in Hk; lia
    | rewrite Bt; exact H | rewrite Bt; exact P | exact E1 |].
  pose proof (frame_flags dt _ _ _ E1) as (_ & _ & F).
  pose proof (speedSum_nan (table w1) 0 ltac:(lia) H1) as S.
  apply is_nan_eq in S. rewrite S in E.
  injection E as <-. cbn [truthy negb].
  repeat split; [congruence | exact H1 | exact P1].
Qed.

(** X19: a NaN speed of the cue ball never leaves.  From a state in
    which the balls are moving, the cue ball's speed is NaN and the cue
    ball is in no pocket, every sequence of [update],
    [mouseButtonPressed] and [mouseButtonReleased] calls ends with
    [isBallsMoving] still set: [speedSum()] is NaN, so the test
    [!table.speedSum()] of [update] never succeeds, and the pointer
    handlers do nothing while the balls are moving. *)
Theorem nan_speed_never_rests : forall w w',
  isBallsMoving w = true ->
  is_nan (speed (table w) 0) = true ->
  isInPocket 0 (table w) = false ->
  Play w w' ->
  isBallsMoving w' = true /\
  is_nan (Table_speedSum (table w')) = true /\
  isChargingShot w' = isChargingShot w.
Proof.
  intros w w' M H P Pl.
  assert (I : isBallsMoving w' = true /\
              is_nan (speed (table w') 0) = true /\
              isInPocket 0 (table w') = false /\
              isChargingShot w' = isChargingShot w).
  { induction Pl as [w|dt w w1 w2 Pl IH E|x y w w1 Pl IH|x y w w1 Pl IH].
    - auto.
    - destruct (IH M H P) as (M1 & H1 & P1 & C1).
      destruct (update_nan_speed dt w1 w2 M1 H1 P1 E) as (M2 & H2 & P2).
      destruct (update_flags dt w1 w2 E) as (C2 & _).
      repeat split; try assumption. congruence.
    - destruct (IH M H P) as (M1 & H1 & P1 & C1).
      unfold mouseButtonPressed. rewrite M1. auto.
    - destruct (IH M H P) as (M1 & H1 & P1 & C1).
      unfold mouseButtonReleased. rewrite M1. auto. }
  destruct I as (M' & H' & _ & C').
  repeat split; [exact M' | | exact C'].
  apply (speedSum_nan _ 0); [lia | exact H'].
Qed.

Lemma nan_speed_never_rests_witness :
  exists w1,
    update dt60 nan_charge_shot = Some w1 /\
    isBallsMoving (mouseButtonReleased f0 f0 (mouseButtonPressed f0 f0 w1))
      = true.
Proof.
  destruct (update_total dt60 nan_charge_shot) as (w1 & E).
  exists w1. split; [exact E|].
  apply (nan_speed_never_rests nan_charge_shot);
    [vm_compute; reflexivity | vm_compute; reflexivity
    | vm_compute; reflexivity |].
  apply play_released, play_pressed.
  eapply play_update; [apply play_stop | exact E].
Defined.
